(** * The real-time connection layer of the AI Novel Writer frontend

    A shallow embedding of

    - [src/lib/websocket-manager.ts]: the [WebSocketManager] class (connection
      state machine, reconnection policy, heartbeat, event bus), the
      [getInstance] singleton and the [useWebSocket] hook;
    - [src/components/providers/websocket-provider.tsx]: the two reducers that
      fold [processing-status] snapshots and [task-update] deltas into the
      provider's [processingStatus] state.

    Conventions of the embedding.

    - JavaScript numbers that the code uses as counters, close codes and
      millisecond delays are integers in [Z] (exact for doubles below 2^53).
    - The browser objects the manager talks to are an explicit world: a store
      of sockets addressed by allocation index, the pending [setTimeout] and
      [setInterval] timers, the console and the log of handler invocations.
    - Subscribers are opaque callbacks named by a number; invoking one appends
      to the call log.  A callback is assumed not to call back into the
      manager while it runs.
    - An [Event] is either a call of a public method or something the browser
      does (a socket event, a timer firing); [step] runs the code the event
      triggers. *)

From Stdlib Require Import ZArith Lia.
From stdpp Require Import base option list strings pretty gmap.

(** ** Data model *)

Definition Payload := string.

Module ConnectionState.
Inductive t := CONNECTING | CONNECTED | DISCONNECTED | RECONNECTING | ERROR.

#[global] Instance eq_dec : EqDecision t.
Proof. solve_decision. Defined.
End ConnectionState.

(** [WebSocket.readyState] of the browser API. *)
Module WebSocket.
Inductive ReadyState := CONNECTING | OPEN | CLOSING | CLOSED.

#[global] Instance eq_dec : EqDecision ReadyState.
Proof. solve_decision. Defined.
End WebSocket.

(** [Required<WebSocketConfig>] *)
Record WebSocketConfig := mkConfig {
  url : string;
  reconnectInterval : Z;
  maxReconnectAttempts : Z;
  heartbeatInterval : Z;
  authToken : string
}.

(** [WebSocketConfig] as callers pass it: every property may be absent. *)
Record PartialConfig := mkPartial {
  p_url : option string;
  p_reconnectInterval : option Z;
  p_maxReconnectAttempts : option Z;
  p_heartbeatInterval : option Z;
  p_authToken : option string
}.

Definition emptyConfig : PartialConfig := mkPartial None None None None None.

(** What [send] hands to the socket: the object given to [JSON.stringify]. *)
Record Envelope := mkEnvelope {
  env_type : string;
  env_data : option Payload;
  env_timestamp : Z
}.

(** A browser socket.  [listening] records that [setupEventListeners] has
    assigned the manager's [onopen]/[onclose]/[onerror]/[onmessage]. *)
Record Socket := mkSocket {
  sock_url : string;
  readyState : WebSocket.ReadyState;
  listening : bool;
  sent : list Envelope;
  closeArgs : option (Z * string)
}.

Inductive Diag :=
| LogConnected
| LogDisconnected (code : Z)
| LogScheduling (attempt maxAttempts : Z)
| WarnNotSent (type : string) (data : option Payload)
| ErrConnectionFailed
| ErrSocket
| ErrParse
| ErrHandler (type : string)
| ErrStateHandler
| ErrMaxAttempts.

Inductive Call :=
| CallEvent (handler : nat) (data : Payload)
| CallState (handler : nat) (state : ConnectionState.t).

Inductive Exn := SyntaxError | URIError | InvalidStateError | TypeError.

Inductive Res (A : Type) :=
| Ok (a : A)
| Throw (e : Exn).
Arguments Ok {A} a.
Arguments Throw {A} e.

(** The fields of [class WebSocketManager].  [ws] is a reference into the
    socket store; the two timers hold the id returned by [setTimeout] and
    [setInterval] (ids are positive, hence truthy, when set). *)
Record WebSocketManager := mkManager {
  ws : option nat;
  config : WebSocketConfig;
  connectionState : ConnectionState.t;
  reconnectAttempts : Z;
  reconnectTimer : option nat;
  heartbeatTimer : option nat;
  eventHandlers : gmap string (list nat);
  connectionStateHandlers : list nat
}.

Record World := mkWorld {
  this : WebSocketManager;
  sockets : list Socket;
  timeouts : list (nat * Z);
  intervals : list (nat * Z);
  next_timer : nat;
  now : Z;
  console : list Diag;
  calls : list Call
}.

(** What the code takes from its surroundings. *)
Record Env := mkEnv {
  NEXT_PUBLIC_WS_URL : option string;
  (** [new WebSocket(u)] throws a [SyntaxError] on a URL it cannot parse *)
  valid_url : string -> bool;
  (** [encodeURIComponent]; [None] is its [URIError] *)
  encodeURIComponent : string -> option string;
  (** whether a subscriber's callback throws when invoked *)
  handler_throws : nat -> bool
}.

(** ** Field updates *)

Definition set_ws (v : option nat) (m : WebSocketManager) : WebSocketManager :=
  mkManager v (config m) (connectionState m) (reconnectAttempts m)
    (reconnectTimer m) (heartbeatTimer m) (eventHandlers m)
    (connectionStateHandlers m).

Definition set_authToken (tok : string) (m : WebSocketManager) : WebSocketManager :=
  let c := config m in
  mkManager (ws m)
    (mkConfig (url c) (reconnectInterval c) (maxReconnectAttempts c)
       (heartbeatInterval c) tok)
    (connectionState m) (reconnectAttempts m)
    (reconnectTimer m) (heartbeatTimer m) (eventHandlers m)
    (connectionStateHandlers m).

Definition set_connectionState (s : ConnectionState.t) (m : WebSocketManager)
  : WebSocketManager :=
  mkManager (ws m) (config m) s (reconnectAttempts m)
    (reconnectTimer m) (heartbeatTimer m) (eventHandlers m)
    (connectionStateHandlers m).

Definition set_reconnectAttempts (n : Z) (m : WebSocketManager) : WebSocketManager :=
  mkManager (ws m) (config m) (connectionState m) n
    (reconnectTimer m) (heartbeatTimer m) (eventHandlers m)
    (connectionStateHandlers m).

Definition set_reconnectTimer (t : option nat) (m : WebSocketManager)
  : WebSocketManager :=
  mkManager (ws m) (config m) (connectionState m) (reconnectAttempts m)
    t (heartbeatTimer m) (eventHandlers m) (connectionStateHandlers m).

Definition set_heartbeatTimer (t : option nat) (m : WebSocketManager)
  : WebSocketManager :=
  mkManager (ws m) (config m) (connectionState m) (reconnectAttempts m)
    (reconnectTimer m) t (eventHandlers m) (connectionStateHandlers m).

Definition set_eventHandlers (h : gmap string (list nat)) (m : WebSocketManager)
  : WebSocketManager :=
  mkManager (ws m) (config m) (connectionState m) (reconnectAttempts m)
    (reconnectTimer m) (heartbeatTimer m) h (connectionStateHandlers m).

Definition set_connectionStateHandlers (h : list nat) (m : WebSocketManager)
  : WebSocketManager :=
  mkManager (ws m) (config m) (connectionState m) (reconnectAttempts m)
    (reconnectTimer m) (heartbeatTimer m) (eventHandlers m) h.

Definition upd_this (f : WebSocketManager -> WebSocketManager) (w : World) : World :=
  mkWorld (f (this w)) (sockets w) (timeouts w) (intervals w) (next_timer w)
    (now w) (console w) (calls w).

Definition set_sockets (s : list Socket) (w : World) : World :=
  mkWorld (this w) s (timeouts w) (intervals w) (next_timer w)
    (now w) (console w) (calls w).

Definition set_timeouts (t : list (nat * Z)) (w : World) : World :=
  mkWorld (this w) (sockets w) t (intervals w) (next_timer w)
    (now w) (console w) (calls w).

Definition set_intervals (t : list (nat * Z)) (w : World) : World :=
  mkWorld (this w) (sockets w) (timeouts w) t (next_timer w)
    (now w) (console w) (calls w).

Definition set_next_timer (n : nat) (w : World) : World :=
  mkWorld (this w) (sockets w) (timeouts w) (intervals w) n
    (now w) (console w) (calls w).

Definition set_now (t : Z) (w : World) : World :=
  mkWorld (this w) (sockets w) (timeouts w) (intervals w) (next_timer w)
    t (console w) (calls w).

(** [console.log], [console.warn] and [console.error] *)
Definition log (d : Diag) (w : World) : World :=
  mkWorld (this w) (sockets w) (timeouts w) (intervals w) (next_timer w)
    (now w) (console w ++ [d]) (calls w).

Definition record_call (c : Call) (w : World) : World :=
  mkWorld (this w) (sockets w) (timeouts w) (intervals w) (next_timer w)
    (now w) (console w) (calls w ++ [c]).

(** JavaScript truthiness of a string, and of an optional string argument
    ([undefined] and the empty string are falsy). *)
Definition truthy (s : string) : bool := bool_decide (s ≠ "").

Definition truthy_arg (a : option string) : bool :=
  match a with
  | Some s => truthy s
  | None => false
  end.

(** ** The browser API the manager calls *)

(** [new WebSocket(u)]: a fresh socket in state [CONNECTING], or a
    [SyntaxError]. *)
Definition new_WebSocket (valid : string -> bool) (u : string) (w : World)
  : Res (nat * World) :=
  if valid u then
    Ok (length (sockets w),
        set_sockets
          (sockets w ++ [mkSocket u WebSocket.CONNECTING false [] None]) w)
  else Throw SyntaxError.

(** [socket.send(msg)]: throws while the socket is still connecting, queues
    the message when open, discards it when closing or closed. *)
Definition socket_send (id : nat) (msg : Envelope) (w : World) : Res World :=
  match sockets w !! id with
  | None => Throw TypeError
  | Some s =>
      match readyState s with
      | WebSocket.CONNECTING => Throw InvalidStateError
      | WebSocket.OPEN =>
          Ok (set_sockets
                (<[id := mkSocket (sock_url s) (readyState s) (listening s)
                           (sent s ++ [msg]) (closeArgs s)]> (sockets w)) w)
      | _ => Ok w
      end
  end.

(** [socket.close(code, reason)]: starts the closing handshake unless the
    socket is already closing or closed. *)
Definition socket_close (id : nat) (code : Z) (reason : string) (w : World)
  : World :=
  match sockets w !! id with
  | None => w
  | Some s =>
      match readyState s with
      | WebSocket.CLOSING | WebSocket.CLOSED => w
      | _ =>
          set_sockets
            (<[id := mkSocket (sock_url s) WebSocket.CLOSING (listening s)
                       (sent s) (Some (code, reason))]> (sockets w)) w
      end
  end.

Definition set_readyState (id : nat) (r : WebSocket.ReadyState) (w : World)
  : World :=
  match sockets w !! id with
  | None => w
  | Some s =>
      set_sockets
        (<[id := mkSocket (sock_url s) r (listening s) (sent s) (closeArgs s)]>
           (sockets w)) w
  end.

(** [setTimeout(cb, delay)] and [setInterval(cb, delay)] return a fresh id. *)
Definition setTimeout (delay : Z) (w : World) : nat * World :=
  (next_timer w,
   set_next_timer (S (next_timer w))
     (set_timeouts (timeouts w ++ [(next_timer w, delay)]) w)).

Definition setInterval (delay : Z) (w : World) : nat * World :=
  (next_timer w,
   set_next_timer (S (next_timer w))
     (set_intervals (intervals w ++ [(next_timer w, delay)]) w)).

Definition cancel (t : nat) (l : list (nat * Z)) : list (nat * Z) :=
  filter (λ p, p.1 ≠ t) l.

Definition clearTimeout (t : nat) (w : World) : World :=
  set_timeouts (cancel t (timeouts w)) w.

Definition clearInterval (t : nat) (w : World) : World :=
  set_intervals (cancel t (intervals w)) w.

Definition pending (t : nat) (l : list (nat * Z)) : bool :=
  bool_decide (t ∈ l.*1).

(** ** [class WebSocketManager] *)

Definition DEFAULT_CONFIG (E : Env) : WebSocketConfig :=
  {| url := match NEXT_PUBLIC_WS_URL E with
            | Some u => if truthy u then u else "ws://localhost:8000/ws"
            | None => "ws://localhost:8000/ws"
            end;
     reconnectInterval := 3000;
     maxReconnectAttempts := 5;
     heartbeatInterval := 30000;
     authToken := "" |}.

(** [{ ...base, ...over }] *)
Definition spread (base : WebSocketConfig) (over : PartialConfig)
  : WebSocketConfig :=
  {| url := default (url base) (p_url over);
     reconnectInterval := default (reconnectInterval base) (p_reconnectInterval over);
     maxReconnectAttempts :=
       default (maxReconnectAttempts base) (p_maxReconnectAttempts over);
     heartbeatInterval := default (heartbeatInterval base) (p_heartbeatInterval over);
     authToken := default (authToken base) (p_authToken over) |}.

(** [private constructor(config: WebSocketConfig = {})] with the field
    initialisers of the class. *)
Definition new_WebSocketManager (E : Env) (cfg : option PartialConfig)
  : WebSocketManager :=
  {| ws := None;
     config := spread (DEFAULT_CONFIG E) (default emptyConfig cfg);
     connectionState := ConnectionState.DISCONNECTED;
     reconnectAttempts := 0;
     reconnectTimer := None;
     heartbeatTimer := None;
     eventHandlers := ∅;
     connectionStateHandlers := [] |}.

Section Manager.
Variable E : Env.

(** [this.ws?.readyState === WebSocket.OPEN] *)
Definition ws_is_open (w : World) : bool :=
  match ws (this w) with
  | None => false
  | Some id =>
      match sockets w !! id with
      | None => false
      | Some s => bool_decide (readyState s = WebSocket.OPEN)
      end
  end.

(** One iteration of [connectionStateHandlers.forEach]: the call, and the
    [catch] when the handler throws. *)
Definition notify_state (state : ConnectionState.t) (w : World) (h : nat) : World :=
  let w := record_call (CallState h state) w in
  if handler_throws E h then log ErrStateHandler w else w.

Definition setConnectionState (state : ConnectionState.t) (w : World) : World :=
  if decide (connectionState (this w) = state) then w
  else
    let w := upd_this (set_connectionState state) w in
    foldl (notify_state state) w (connectionStateHandlers (this w)).

Definition clearReconnectTimer (w : World) : World :=
  match reconnectTimer (this w) with
  | Some t => upd_this (set_reconnectTimer None) (clearTimeout t w)
  | None => w
  end.

Definition clearHeartbeatTimer (w : World) : World :=
  match heartbeatTimer (this w) with
  | Some t => upd_this (set_heartbeatTimer None) (clearInterval t w)
  | None => w
  end.

Definition scheduleReconnect (w : World) : World :=
  if decide (reconnectAttempts (this w) >= maxReconnectAttempts (config (this w)))%Z
  then
    let w := log ErrMaxAttempts w in
    setConnectionState ConnectionState.ERROR w
  else
    let w := upd_this (set_reconnectAttempts (reconnectAttempts (this w) + 1)) w in
    let w := setConnectionState ConnectionState.RECONNECTING w in
    let w := log (LogScheduling (reconnectAttempts (this w))
                    (maxReconnectAttempts (config (this w)))) w in
    let '(t, w) :=
      setTimeout (reconnectInterval (config (this w)) * reconnectAttempts (this w)) w in
    upd_this (set_reconnectTimer (Some t)) w.

Definition setupEventListeners (w : World) : World :=
  match ws (this w) with
  | None => w
  | Some id =>
      match sockets w !! id with
      | None => w
      | Some s =>
          set_sockets
            (<[id := mkSocket (sock_url s) (readyState s) true (sent s)
                       (closeArgs s)]> (sockets w)) w
      end
  end.

(** The [wsUrl] expression of [connect]; [None] when [encodeURIComponent]
    throws. *)
Definition wsUrl (c : WebSocketConfig) : option string :=
  if truthy (authToken c) then
    e ← encodeURIComponent E (authToken c);
    Some (url c +:+ "?token=" +:+ e)
  else Some (url c).

(** The [try] block of [connect]. *)
Definition connect_try (w : World) : Res World :=
  match wsUrl (config (this w)) with
  | None => Throw URIError
  | Some u =>
      match new_WebSocket (valid_url E) u w with
      | Throw e => Throw e
      | Ok (id, w) => Ok (setupEventListeners (upd_this (set_ws (Some id)) w))
      end
  end.

(** [if (authToken) { this.config.authToken = authToken }] *)
Definition store_authToken (authToken : option string) (w : World) : World :=
  match authToken with
  | Some tok => if truthy tok then upd_this (set_authToken tok) w else w
  | None => w
  end.

Definition connect (authToken : option string) (w : World) : World :=
  if ws_is_open w then w
  else
    let w := store_authToken authToken w in
    let w := setConnectionState ConnectionState.CONNECTING w in
    let w := clearReconnectTimer w in
    match connect_try w with
    | Ok w => w
    | Throw _ =>
        let w := log ErrConnectionFailed w in
        let w := setConnectionState ConnectionState.ERROR w in
        scheduleReconnect w
    end.

Definition disconnect (w : World) : World :=
  let w := clearReconnectTimer w in
  let w := clearHeartbeatTimer w in
  let w := match ws (this w) with
           | Some id =>
               upd_this (set_ws None) (socket_close id 1000 "Client disconnect" w)
           | None => w
           end in
  let w := setConnectionState ConnectionState.DISCONNECTED w in
  upd_this (set_reconnectAttempts 0) w.

(** [Set.prototype.add]: insertion order, no duplicate. *)
Definition set_add (h : nat) (l : list nat) : list nat :=
  if decide (h ∈ l) then l else l ++ [h].

(** [Set.prototype.delete] *)
Definition set_delete (h : nat) (l : list nat) : list nat :=
  filter (λ x, x ≠ h) l.

Definition on (eventType : string) (handler : nat) (w : World) : World :=
  let hs := default [] (eventHandlers (this w) !! eventType) in
  upd_this (set_eventHandlers
              (<[eventType := set_add handler hs]> (eventHandlers (this w)))) w.

(** The closure [on] returns. *)
Definition unsubscribe (eventType : string) (handler : nat) (w : World) : World :=
  match eventHandlers (this w) !! eventType with
  | None => w
  | Some hs =>
      let hs := set_delete handler hs in
      if decide (length hs = 0) then
        upd_this (set_eventHandlers (delete eventType (eventHandlers (this w)))) w
      else
        upd_this (set_eventHandlers (<[eventType := hs]> (eventHandlers (this w)))) w
  end.

Definition onConnectionStateChange (handler : nat) (w : World) : World :=
  upd_this (set_connectionStateHandlers
              (set_add handler (connectionStateHandlers (this w)))) w.

(** The closure [onConnectionStateChange] returns. *)
Definition unsubscribeState (handler : nat) (w : World) : World :=
  upd_this (set_connectionStateHandlers
              (set_delete handler (connectionStateHandlers (this w)))) w.

Definition send (type : string) (data : option Payload) (w : World) : Res World :=
  if ws_is_open w then
    match ws (this w) with
    | Some id => socket_send id (mkEnvelope type data (now w)) w
    | None => Throw TypeError
    end
  else Ok (log (WarnNotSent type data) w).

Definition getConnectionState (w : World) : ConnectionState.t :=
  connectionState (this w).

Definition isConnected (w : World) : bool :=
  bool_decide (connectionState (this w) = ConnectionState.CONNECTED).

Definition startHeartbeat (w : World) : World :=
  let w := clearHeartbeatTimer w in
  let '(t, w) := setInterval (heartbeatInterval (config (this w))) w in
  upd_this (set_heartbeatTimer (Some t)) w.

(** The callback [startHeartbeat] gives to [setInterval]. *)
Definition heartbeat (w : World) : Res World :=
  if ws_is_open w then send "ping" None w else Ok w.

Definition onopen (w : World) : World :=
  let w := log LogConnected w in
  let w := setConnectionState ConnectionState.CONNECTED w in
  let w := upd_this (set_reconnectAttempts 0) w in
  startHeartbeat w.

Definition onclose (code : Z) (w : World) : World :=
  let w := log (LogDisconnected code) w in
  let w := clearHeartbeatTimer w in
  if decide (code ≠ 1000%Z) then
    let w := setConnectionState ConnectionState.DISCONNECTED w in
    scheduleReconnect w
  else
    setConnectionState ConnectionState.DISCONNECTED w.

Definition onerror (w : World) : World :=
  let w := log ErrSocket w in
  setConnectionState ConnectionState.ERROR w.

(** One iteration of [handlers.forEach] in [handleMessage]. *)
Definition dispatch (type : string) (data : Payload) (w : World) (h : nat) : World :=
  let w := record_call (CallEvent h data) w in
  if handler_throws E h then log (ErrHandler type) w else w.

Definition handleMessage (type : string) (data : Payload) (w : World) : World :=
  if decide (type = "pong") then w
  else
    match eventHandlers (this w) !! type with
    | Some handlers => foldl (dispatch type data) w handlers
    | None => w
    end.

(** [onmessage]; the argument is the outcome of [JSON.parse] followed by the
    destructuring [{ type, data }], [None] when either throws.  (A parsed
    value without a [type] finds no handler, like a type nobody subscribed
    to.) *)
Definition onmessage (parsed : option (string * Payload)) (w : World) : World :=
  match parsed with
  | Some (type, data) => handleMessage type data w
  | None => log ErrParse w
  end.

(** ** Events and the step function *)

Inductive Event :=
| CallConnect (authToken : option string)
| CallDisconnect
| CallSend (type : string) (data : option Payload)
| CallOn (eventType : string) (handler : nat)
| CallUnsubscribe (eventType : string) (handler : nat)
| CallOnConnectionStateChange (handler : nat)
| CallUnsubscribeState (handler : nat)
| SocketOpen (id : nat)
| SocketClose (id : nat) (code : Z)
| SocketError (id : nat)
| SocketMessage (id : nat) (parsed : option (string * Payload))
| ReconnectTimerFires (t : nat)
| HeartbeatTick (t : nat)
| ClockAdvance (t : Z).

(** Runs a socket's listener when [setupEventListeners] installed it. *)
Definition deliver (id : nat) (listener : World -> World) (w : World) : World :=
  match sockets w !! id with
  | Some s => if listening s then listener w else w
  | None => w
  end.

Definition socket_state (id : nat) (w : World) : option WebSocket.ReadyState :=
  readyState <$> sockets w !! id.

(** An uncaught exception leaves the world as it was when thrown; every
    function here throws before it changes anything. *)
Definition settle (w : World) (r : Res World) : World :=
  match r with
  | Ok w' => w'
  | Throw _ => w
  end.

(** [step w e] is [None] when the browser cannot produce [e] in [w]: a
    socket opens only while connecting, closes at most once, delivers a
    message only while open; a timer fires only while pending, and a fired
    timeout is no longer pending when its callback [this.connect()] runs.
    An error event is allowed on any socket. *)
Definition step (w : World) (e : Event) : option World :=
  match e with
  | CallConnect tok => Some (connect tok w)
  | CallDisconnect => Some (disconnect w)
  | CallSend type data => Some (settle w (send type data w))
  | CallOn eventType h => Some (on eventType h w)
  | CallUnsubscribe eventType h => Some (unsubscribe eventType h w)
  | CallOnConnectionStateChange h => Some (onConnectionStateChange h w)
  | CallUnsubscribeState h => Some (unsubscribeState h w)
  | SocketOpen id =>
      match socket_state id w with
      | Some WebSocket.CONNECTING =>
          Some (deliver id onopen (set_readyState id WebSocket.OPEN w))
      | _ => None
      end
  | SocketClose id code =>
      match socket_state id w with
      | Some WebSocket.CLOSED | None => None
      | Some _ =>
          Some (deliver id (onclose code) (set_readyState id WebSocket.CLOSED w))
      end
  | SocketError id =>
      match socket_state id w with
      | Some _ => Some (deliver id onerror w)
      | None => None
      end
  | SocketMessage id parsed =>
      match socket_state id w with
      | Some WebSocket.OPEN => Some (deliver id (onmessage parsed) w)
      | _ => None
      end
  | ReconnectTimerFires t =>
      if pending t (timeouts w) then
        Some (connect None (set_timeouts (cancel t (timeouts w)) w))
      else None
  | HeartbeatTick t =>
      if pending t (intervals w) then Some (settle w (heartbeat w)) else None
  | ClockAdvance t =>
      if decide (now w <= t)%Z then Some (set_now t w) else None
  end.

Fixpoint run (w : World) (es : list Event) : option World :=
  match es with
  | [] => Some w
  | e :: es =>
      match step w e with
      | Some w' => run w' es
      | None => None
      end
  end.

(** The world right after the module is loaded: the singleton built by
    [getInstance()] with no argument, no socket, no timer. *)
Definition fresh (m : WebSocketManager) : World :=
  {| this := m; sockets := []; timeouts := []; intervals := [];
     next_timer := 1; now := 0; console := []; calls := [] |}.

Definition init : World := fresh (new_WebSocketManager E None).

Inductive reachable_from (w0 : World) : World -> Prop :=
| reach_refl : reachable_from w0 w0
| reach_step w e w' :
    reachable_from w0 w -> step w e = Some w' -> reachable_from w0 w'.

End Manager.

(** ** The singleton: [getInstance], [wsManager], [useWebSocket] *)

Module Singleton.

(** Module-level state: the objects built so far by the private constructor
    and the static field [WebSocketManager.instance] referring to one of
    them. *)
Record ModuleState := mkModule {
  instance : option nat;
  heap : list WebSocketManager
}.

Definition unloaded : ModuleState := mkModule None [].

Definition getInstance (E : Env) (config : option PartialConfig) (ms : ModuleState)
  : nat * ModuleState :=
  match instance ms with
  | Some r => (r, ms)
  | None =>
      let r := length (heap ms) in
      (r, mkModule (Some r) (heap ms ++ [new_WebSocketManager E config]))
  end.

(** [export const wsManager = WebSocketManager.getInstance()], evaluated when
    the module is loaded. *)
Definition loaded (E : Env) : ModuleState := (getInstance E None unloaded).2.

(** [useWebSocket(config)]: every closure of the object it returns captures
    the manager this reference denotes. *)
Definition useWebSocket (E : Env) (config : option PartialConfig) (ms : ModuleState)
  : nat * ModuleState :=
  getInstance E config ms.

End Singleton.

(** ** The status aggregator of [WebSocketProvider] *)

Module Provider.

Inductive TaskType := writing | analysis | research | consistency_check.
Inductive TaskStatus := pending | processing | completed | failed.

Record Task := mkTask {
  id : string;
  type : TaskType;
  status : TaskStatus;
  progress : Z;
  description : string;
  startedAt : option Z;
  completedAt : option Z
}.

Record ProcessingStatus := mkStatus {
  activeAgents : list string;
  currentTasks : list Task;
  queueLength : Z;
  estimatedCompletion : option Z
}.

(** The two pieces of React state the handlers write. *)
Record State := mkState {
  processingStatus : option ProcessingStatus;
  lastActivity : option Z
}.

(** [useState(null)] for both. *)
Definition initial : State := mkState None None.

(** The handler of ['processing-status']. *)
Definition onProcessingStatus (status : ProcessingStatus) (date : Z) (st : State)
  : State :=
  mkState (Some status) (Some date).

(** The updater passed to [setProcessingStatus] by the handler of
    ['task-update']. *)
Definition mergeTask (task : Task) (prev : option ProcessingStatus)
  : option ProcessingStatus :=
  match prev with
  | None => None
  | Some prev =>
      let updatedTasks :=
        map (λ t, if decide (id t = id task) then task else t) (currentTasks prev) in
      let updatedTasks :=
        match find (λ t, bool_decide (id t = id task)) updatedTasks with
        | Some _ => updatedTasks
        | None => updatedTasks ++ [task]
        end in
      Some (mkStatus (activeAgents prev) updatedTasks (queueLength prev)
              (estimatedCompletion prev))
  end.

(** The handler of ['task-update']. *)
Definition onTaskUpdate (task : Task) (date : Z) (st : State) : State :=
  mkState (mergeTask task (processingStatus st)) (Some date).

(** What the event bus delivers to the two handlers, with the [new Date()]
    each reads. *)
Inductive Message :=
| Snapshot (status : ProcessingStatus) (date : Z)
| Delta (task : Task) (date : Z).

Definition handle (st : State) (m : Message) : State :=
  match m with
  | Snapshot status date => onProcessingStatus status date st
  | Delta task date => onTaskUpdate task date st
  end.

Definition feed (st : State) (ms : list Message) : State := foldl handle st ms.

Definition is_snapshot (m : Message) : bool :=
  match m with
  | Snapshot _ _ => true
  | Delta _ _ => false
  end.

End Provider.

(** ** Concrete environments and traces used by the examples below *)

(** Every URL is accepted, [encodeURIComponent] is the identity (true of the
    unreserved characters used below), no handler throws, and the environment
    variable is unset. *)
Definition plainEnv : Env := mkEnv None (λ _, true) (λ s, Some s) (λ _, false).

(** Five consecutive abnormal closes (code 1006) of a connection that had
    opened once: each reconnect attempt is made by the timer and fails. *)
Definition fiveAbnormalCloses : list Event :=
  [ CallConnect (Some "tok"); SocketOpen 0; SocketClose 0 1006;
    ReconnectTimerFires 2; SocketClose 1 1006;
    ReconnectTimerFires 3; SocketClose 2 1006;
    ReconnectTimerFires 4; SocketClose 3 1006;
    ReconnectTimerFires 5; SocketClose 4 1006 ].

(** A sixth failure in a row: the fifth attempt is made and fails too. *)
Definition sixAbnormalCloses : list Event :=
  fiveAbnormalCloses ++ [ReconnectTimerFires 6; SocketClose 5 1006].

(** Two [connect()] calls in a row; both sockets open; the server then drops
    the first one. *)
Definition doubleConnect : list Event :=
  [ CallConnect None; CallConnect None; SocketOpen 0; SocketOpen 1;
    SocketClose 0 1001 ].

(** Two [connect()] calls in a row and both sockets drop: each close
    schedules a reconnect, and the manager remembers the second timer only. *)
Definition twoReconnectTimers : list Event :=
  [ CallConnect None; CallConnect None; SocketClose 0 1006; SocketClose 1 1006 ].

(** A connection drops once: the manager is waiting for the reconnect
    timer. *)
Definition oneAbnormalClose : list Event :=
  [ CallConnect (Some "tok"); SocketOpen 0; SocketClose 0 1006 ].

(** An environment whose [WebSocket] constructor rejects every URL. *)
Definition rejectingEnv : Env := mkEnv None (λ _, false) (λ s, Some s) (λ _, false).

(** The world a trace leads to from the freshly loaded module. *)
Definition after (es : list Event) : World :=
  default (init plainEnv) (run plainEnv (init plainEnv) es).

(** The delay of the timeout scheduled last. *)
Definition scheduled_delay (w : World) : option Z := snd <$> last (timeouts w).

(** A snapshot with one task [a] at 10 percent, an update of [a] to 50
    percent, and a task [b] the snapshot has not seen. *)
Definition taskA10 : Provider.Task :=
  Provider.mkTask "a" Provider.writing Provider.processing 10 "draft chapter"
    None None.

Definition taskA50 : Provider.Task :=
  Provider.mkTask "a" Provider.writing Provider.processing 50 "draft chapter"
    None None.

Definition taskB : Provider.Task :=
  Provider.mkTask "b" Provider.analysis Provider.pending 0 "check timeline"
    None None.

Definition snapshotS : Provider.ProcessingStatus :=
  Provider.mkStatus ["writer"] [taskA10] 3 None.

(** ** Statements of the specification that are compared with the code *)

(** "Calling [connect()] while already Connected is a no-op; calling it while
    Connecting or Reconnecting opens no second socket and does not replace
    the existing attempt." *)
Definition spec_connect_idempotent (E : Env) : Prop :=
  ∀ w tok, reachable_from E (init E) w →
    (connectionState (this w) = ConnectionState.CONNECTED →
     connect E tok w = w) ∧
    (connectionState (this w) = ConnectionState.CONNECTING ∨
     connectionState (this w) = ConnectionState.RECONNECTING →
     sockets (connect E tok w) = sockets w ∧
     ws (this (connect E tok w)) = ws (this w) ∧
     timeouts (connect E tok w) = timeouts w).

(** "The reconnect attempt counter is reset to 0 exactly when the connection
    reaches Connected, and it increments only in Reconnecting; no other
    operation or transition changes it." *)
Definition spec_counter_invariant (E : Env) : Prop :=
  ∀ w e w', reachable_from E (init E) w → step E w e = Some w' →
    reconnectAttempts (this w') ≠ reconnectAttempts (this w) →
    (reconnectAttempts (this w') = 0%Z ∧
     connectionState (this w') = ConnectionState.CONNECTED) ∨
    (reconnectAttempts (this w') = (reconnectAttempts (this w) + 1)%Z ∧
     connectionState (this w') = ConnectionState.RECONNECTING).

(** How one evaluation of the reconnection policy may move the counter:
    not at all, or up by one on the way into Reconnecting. *)
Definition counter_step (w w' : World) : Prop :=
  reconnectAttempts (this w') = reconnectAttempts (this w) ∨
  (reconnectAttempts (this w') = (reconnectAttempts (this w) + 1)%Z ∧
   connectionState (this w') = ConnectionState.RECONNECTING ∧
   (reconnectAttempts (this w) < maxReconnectAttempts (config (this w)))%Z).

(** "Once the attempt count reaches [maxReconnectAttempts] the manager is in
    the Error state" (five consecutive abnormal closes with the default
    maximum of 5 end in Error). *)
Definition spec_exhaustion (E : Env) : Prop :=
  ∀ w, reachable_from E (init E) w →
    reconnectAttempts (this w) = maxReconnectAttempts (config (this w)) →
    connectionState (this w) = ConnectionState.ERROR.

(** "Every [send] made while the manager is not in the Connected state is
    dropped: nothing is transmitted and the manager is unchanged." *)
Definition spec_send_dropped (E : Env) : Prop :=
  ∀ w type data, reachable_from E (init E) w →
    connectionState (this w) ≠ ConnectionState.CONNECTED →
    ∃ w', send type data w = Ok w' ∧ this w' = this w ∧ sockets w' = sockets w.

(** "[connect(token)] stores the token in the manager's configuration." *)
Definition spec_token_stored (E : Env) : Prop :=
  ∀ w tok, reachable_from E (init E) w → tok ≠ "" →
    authToken (config (this (connect E (Some tok) w))) = tok.

(** A token is refreshed while the connection is open; the connection then
    drops and the timer reconnects. *)
Definition tokenRefresh : list Event :=
  [ CallConnect (Some "old"); SocketOpen 0; CallConnect (Some "new");
    SocketClose 0 1006; ReconnectTimerFires 2 ].

(** Events after which the reconnection policy may have attempts to spare
    again: they are the two that reset the counter. *)
Definition resets_counter (e : Event) : bool :=
  match e with
  | SocketOpen _ | CallDisconnect => true
  | _ => false
  end.

(** The number of timers the manager has created between two worlds: every
    [setTimeout] and every [setInterval] takes the next identifier. *)
Definition timers_created (w w' : World) : Z :=
  (Z.of_nat (next_timer w') - Z.of_nat (next_timer w))%Z.

(** What a step that is not a reset of the counter may do to the reconnection
    schedule.  Either it creates no timer, leaves the counter alone and adds
    no pending timeout; or it creates exactly one timer, which is the
    reconnect timer of [scheduleReconnect] (the next identifier, with delay
    [reconnectInterval * reconnectAttempts] for the counter just
    incremented), and the counter, which was below the maximum, has gone up
    by exactly one. *)
Definition schedule_step (w w' : World) : Prop :=
  (timers_created w w' = 0%Z ∧
   reconnectAttempts (this w') = reconnectAttempts (this w) ∧
   timeouts w' ⊆ timeouts w) ∨
  (timers_created w w' = 1%Z ∧
   reconnectAttempts (this w') = (reconnectAttempts (this w) + 1)%Z ∧
   (reconnectAttempts (this w) < maxReconnectAttempts (config (this w)))%Z ∧
   ∃ kept, kept ⊆ timeouts w ∧
     timeouts w' =
     kept ++ [(next_timer w,
               (reconnectInterval (config (this w')) *
                reconnectAttempts (this w'))%Z)]).

(** ** The provider's effects and the two status components *)




(** The provider's [connectionState] state: [useState(DISCONNECTED)],
    overwritten by every notification its listener [h] receives. *)
Definition observed (h : nat) (cs : list Call) : ConnectionState.t :=
  foldl (λ s c,
           match c with
           | CallState h' s' => if decide (h' = h) then s' else s
           | CallEvent _ _ => s
           end)
    ConnectionState.DISCONNECTED cs.

(** What state-change listener [h] can tell about the manager: the state,
    the registered listeners, and the state [h] saw last. *)
Definition view (h : nat) (w : World)
  : ConnectionState.t * list nat * ConnectionState.t :=
  (connectionState (this w), connectionStateHandlers (this w),
   observed h (calls w)).

(** The effect of one [setConnectionState(s)] on that view. *)
Definition viewSet (h : nat) (s : ConnectionState.t)
    (v : ConnectionState.t * list nat * ConnectionState.t)
  : ConnectionState.t * list nat * ConnectionState.t :=
  let '(st, hs, ob) := v in
  if decide (st = s) then v
  else (s, hs, if decide (h ∈ hs) then s else ob).

Definition in_sync (v : ConnectionState.t * list nat * ConnectionState.t) (h : nat)
  : Prop :=
  h ∈ v.1.2 ∧ v.2 = v.1.1.

(** [ConnectionStatus] (components/ui/connection-status.tsx) *)
Module ConnectionStatus.

Definition getStatusColor (connectionState : ConnectionState.t) : string :=
  match connectionState with
  | ConnectionState.CONNECTED => "bg-green-500"
  | ConnectionState.CONNECTING | ConnectionState.RECONNECTING => "bg-yellow-500"
  | ConnectionState.DISCONNECTED => "bg-gray-400"
  | ConnectionState.ERROR => "bg-red-500"
  end.

Definition getStatusText (connectionState : ConnectionState.t) : string :=
  match connectionState with
  | ConnectionState.CONNECTED => "Connected"
  | ConnectionState.CONNECTING => "Connecting..."
  | ConnectionState.RECONNECTING => "Reconnecting..."
  | ConnectionState.DISCONNECTED => "Disconnected"
  | ConnectionState.ERROR => "Connection Error"
  end.

(** The condition under which the pulsing overlay is rendered. *)
Definition pulses (connectionState : ConnectionState.t) : bool :=
  bool_decide (connectionState = ConnectionState.CONNECTING) ||
  bool_decide (connectionState = ConnectionState.RECONNECTING).

(** [formatLastActivity], with [new Date().getTime()] passed as [now];
    [Math.floor] of a quotient of integers is [Z.div]. *)
Definition formatLastActivity (now : Z) (lastActivity : option Z) : option string :=
  match lastActivity with
  | None => None
  | Some last =>
      let diff := (now - last)%Z in
      let seconds := (diff / 1000)%Z in
      if decide (seconds < 60)%Z then Some (pretty seconds +:+ "s ago")
      else if decide (seconds < 3600)%Z then
        Some (pretty (seconds / 60)%Z +:+ "m ago")
      else Some (pretty (seconds / 3600)%Z +:+ "h ago")
  end.

End ConnectionStatus.

(** [ProcessingStatus] (components/ui/processing-status.tsx) *)
Module ProcessingStatusView.

(** Whether the component returns anything but [null]. *)
Definition renders (processingStatus : option Provider.ProcessingStatus) : bool :=
  match processingStatus with
  | None => false
  | Some p =>
      let hasActiveTasks :=
        bool_decide (0 < length (Provider.currentTasks p)) ||
        bool_decide (0 < length (Provider.activeAgents p)) in
      negb (negb hasActiveTasks && bool_decide (Provider.queueLength p = 0%Z))
  end.

(** The text of the compact variant. *)
Definition compactLabel (p : Provider.ProcessingStatus) : string :=
  if decide (0 < length (Provider.currentTasks p)) then
    pretty (length (Provider.currentTasks p)) +:+ " task" +:+
    (if decide (1 < length (Provider.currentTasks p)) then "s" else "") +:+
    " running"
  else
    pretty (length (Provider.activeAgents p)) +:+ " agent" +:+
    (if decide (1 < length (Provider.activeAgents p)) then "s" else "") +:+
    " active".

End ProcessingStatusView.

(** The registry of the event bus is well formed when no event type is
    mapped to an empty or repeating set of handlers. *)
Definition registry_ok (w : World) : Prop :=
  ∀ ty hs, eventHandlers (this w) !! ty = Some hs → hs ≠ [] ∧ NoDup hs.

(** At most one heartbeat interval is pending: the one the manager holds. *)
Definition heartbeat_ok (w : World) : Prop :=
  match heartbeatTimer (this w) with
  | Some t => ∃ d, intervals w = [(t, d)]
  | None => intervals w = []
  end.

(** ** Frame lemmas: what each operation leaves alone *)

Create Rewrite HintDb world.

Section Frames.
Variable E : Env.

Lemma eta_connectionState m :
  set_connectionState (connectionState m) m = m.
Proof. by destruct m. Qed.

Lemma foldl_notify_state s hs w :
  let w' := foldl (notify_state E s) w hs in
  this w' = this w ∧ sockets w' = sockets w ∧ timeouts w' = timeouts w ∧
  intervals w' = intervals w ∧ next_timer w' = next_timer w ∧ now w' = now w.
Proof.
  revert w. induction hs as [|h hs IH]; intros w; simpl; [done|].
  destruct (IH (notify_state E s w h)) as (-> & -> & -> & -> & -> & ->).
  unfold notify_state. by destruct (handler_throws E h).
Qed.

Lemma foldl_dispatch ty d hs w :
  let w' := foldl (dispatch E ty d) w hs in
  this w' = this w ∧ sockets w' = sockets w ∧ timeouts w' = timeouts w ∧
  intervals w' = intervals w ∧ next_timer w' = next_timer w ∧ now w' = now w.
Proof.
  revert w. induction hs as [|h hs IH]; intros w; simpl; [done|].
  destruct (IH (dispatch E ty d w h)) as (-> & -> & -> & -> & -> & ->).
  unfold dispatch. by destruct (handler_throws E h).
Qed.

Lemma setConnectionState_this s w :
  this (setConnectionState E s w) = set_connectionState s (this w).
Proof.
  unfold setConnectionState. case_decide as H.
  - by rewrite <- H, eta_connectionState.
  - by destruct (foldl_notify_state s
        (connectionStateHandlers (this (upd_this (set_connectionState s) w)))
        (upd_this (set_connectionState s) w)) as (-> & _).
Qed.

Lemma setConnectionState_frame s w :
  let w' := setConnectionState E s w in
  sockets w' = sockets w ∧ timeouts w' = timeouts w ∧
  intervals w' = intervals w ∧ next_timer w' = next_timer w ∧ now w' = now w.
Proof.
  unfold setConnectionState. case_decide as H; [done|].
  by destruct (foldl_notify_state s
        (connectionStateHandlers (this (upd_this (set_connectionState s) w)))
        (upd_this (set_connectionState s) w)) as (_ & -> & -> & -> & -> & ->).
Qed.

Lemma setConnectionState_sockets s w :
  sockets (setConnectionState E s w) = sockets w.
Proof. apply setConnectionState_frame. Qed.

Lemma setConnectionState_timeouts s w :
  timeouts (setConnectionState E s w) = timeouts w.
Proof. apply setConnectionState_frame. Qed.

Lemma setConnectionState_intervals s w :
  intervals (setConnectionState E s w) = intervals w.
Proof. apply setConnectionState_frame. Qed.

Lemma setConnectionState_next_timer s w :
  next_timer (setConnectionState E s w) = next_timer w.
Proof. apply setConnectionState_frame. Qed.

Lemma setConnectionState_now s w :
  now (setConnectionState E s w) = now w.
Proof. apply setConnectionState_frame. Qed.

Lemma setConnectionState_ws_is_open s w :
  ws_is_open (setConnectionState E s w) = ws_is_open w.
Proof.
  unfold ws_is_open.
  by rewrite setConnectionState_this, setConnectionState_sockets.
Qed.

End Frames.

#[export] Hint Rewrite setConnectionState_this setConnectionState_sockets
  setConnectionState_timeouts setConnectionState_intervals
  setConnectionState_next_timer setConnectionState_now
  setConnectionState_ws_is_open : world.

Section Operations.
Variable E : Env.

Lemma eta_reconnectTimer m :
  set_reconnectTimer (reconnectTimer m) m = m.
Proof. by destruct m. Qed.

Lemma eta_heartbeatTimer m :
  set_heartbeatTimer (heartbeatTimer m) m = m.
Proof. by destruct m. Qed.

Lemma clearReconnectTimer_this w :
  this (clearReconnectTimer w) = set_reconnectTimer None (this w).
Proof.
  unfold clearReconnectTimer. destruct (reconnectTimer (this w)) eqn:H; [done|].
  by rewrite <- H, eta_reconnectTimer.
Qed.

Lemma clearReconnectTimer_timeouts w :
  timeouts (clearReconnectTimer w) =
  match reconnectTimer (this w) with
  | Some t => cancel t (timeouts w)
  | None => timeouts w
  end.
Proof. unfold clearReconnectTimer. by destruct (reconnectTimer (this w)). Qed.

Lemma clearReconnectTimer_frame w :
  let w' := clearReconnectTimer w in
  sockets w' = sockets w ∧ intervals w' = intervals w ∧
  next_timer w' = next_timer w ∧ now w' = now w ∧ console w' = console w.
Proof. unfold clearReconnectTimer. by destruct (reconnectTimer (this w)). Qed.

Lemma clearReconnectTimer_sockets w :
  sockets (clearReconnectTimer w) = sockets w.
Proof. apply clearReconnectTimer_frame. Qed.

Lemma clearReconnectTimer_intervals w :
  intervals (clearReconnectTimer w) = intervals w.
Proof. apply clearReconnectTimer_frame. Qed.

Lemma clearReconnectTimer_next_timer w :
  next_timer (clearReconnectTimer w) = next_timer w.
Proof. apply clearReconnectTimer_frame. Qed.

Lemma clearHeartbeatTimer_this w :
  this (clearHeartbeatTimer w) = set_heartbeatTimer None (this w).
Proof.
  unfold clearHeartbeatTimer. destruct (heartbeatTimer (this w)) eqn:H; [done|].
  by rewrite <- H, eta_heartbeatTimer.
Qed.

Lemma clearHeartbeatTimer_frame w :
  let w' := clearHeartbeatTimer w in
  sockets w' = sockets w ∧ timeouts w' = timeouts w ∧
  next_timer w' = next_timer w ∧ now w' = now w ∧ console w' = console w.
Proof. unfold clearHeartbeatTimer. by destruct (heartbeatTimer (this w)). Qed.

Lemma clearHeartbeatTimer_sockets w :
  sockets (clearHeartbeatTimer w) = sockets w.
Proof. apply clearHeartbeatTimer_frame. Qed.

Lemma clearHeartbeatTimer_timeouts w :
  timeouts (clearHeartbeatTimer w) = timeouts w.
Proof. apply clearHeartbeatTimer_frame. Qed.

Lemma clearHeartbeatTimer_next_timer w :
  next_timer (clearHeartbeatTimer w) = next_timer w.
Proof. apply clearHeartbeatTimer_frame. Qed.

(** The two outcomes of the reconnection policy, spelled out. *)
Lemma scheduleReconnect_exhausted w :
  (reconnectAttempts (this w) >= maxReconnectAttempts (config (this w)))%Z →
  scheduleReconnect E w =
  setConnectionState E ConnectionState.ERROR (log ErrMaxAttempts w).
Proof. intros H. unfold scheduleReconnect. by rewrite decide_True. Qed.

Lemma scheduleReconnect_retry_this w :
  (reconnectAttempts (this w) < maxReconnectAttempts (config (this w)))%Z →
  this (scheduleReconnect E w) =
  set_reconnectTimer (Some (next_timer w))
    (set_connectionState ConnectionState.RECONNECTING
       (set_reconnectAttempts (reconnectAttempts (this w) + 1) (this w))).
Proof.
  intros H. unfold scheduleReconnect. rewrite decide_False by lia.
  unfold setTimeout. simpl. by autorewrite with world.
Qed.

Lemma scheduleReconnect_retry_timeouts w :
  (reconnectAttempts (this w) < maxReconnectAttempts (config (this w)))%Z →
  timeouts (scheduleReconnect E w) =
  timeouts w ++
    [(next_timer w,
      (reconnectInterval (config (this w)) * (reconnectAttempts (this w) + 1))%Z)].
Proof.
  intros H. unfold scheduleReconnect. rewrite decide_False by lia.
  unfold setTimeout. simpl. by autorewrite with world.
Qed.

Lemma scheduleReconnect_sockets w :
  sockets (scheduleReconnect E w) = sockets w.
Proof.
  unfold scheduleReconnect. case_decide; unfold setTimeout; simpl;
    by autorewrite with world.
Qed.

Lemma scheduleReconnect_intervals w :
  intervals (scheduleReconnect E w) = intervals w.
Proof.
  unfold scheduleReconnect. case_decide; unfold setTimeout; simpl;
    by autorewrite with world.
Qed.

Lemma scheduleReconnect_config w :
  config (this (scheduleReconnect E w)) = config (this w).
Proof.
  unfold scheduleReconnect. case_decide; unfold setTimeout; simpl;
    by autorewrite with world.
Qed.

End Operations.

#[export] Hint Rewrite clearReconnectTimer_this clearReconnectTimer_timeouts
  clearReconnectTimer_sockets clearReconnectTimer_intervals
  clearReconnectTimer_next_timer clearHeartbeatTimer_this
  clearHeartbeatTimer_sockets clearHeartbeatTimer_timeouts
  clearHeartbeatTimer_next_timer scheduleReconnect_sockets
  scheduleReconnect_intervals scheduleReconnect_config : world.

(** ** [connect] *)

Section Connect.
Variable E : Env.

Lemma insert_last {A} (l : list A) (x y : A) :
  <[length l := y]> (l ++ [x]) = l ++ [y].
Proof. induction l as [|a l IH]; simpl; [done|]. by rewrite IH. Qed.

Lemma lookup_last {A} (l : list A) (x : A) :
  (l ++ [x]) !! length l = Some x.
Proof. induction l as [|a l IH]; simpl; [done|]. by rewrite IH. Qed.

Lemma run_reachable w0 es :
  ∀ w1 w, reachable_from E w0 w1 → run E w1 es = Some w → reachable_from E w0 w.
Proof.
  induction es as [|e es IH]; intros w1 w Hr; simpl.
  - by intros [= <-].
  - destruct (step E w1 e) as [w2|] eqn:Hs; [|done].
    intros Hrun. eapply IH; [|exact Hrun]. by eapply reach_step.
Qed.

Lemma store_authToken_frame tok w :
  let w' := store_authToken tok w in
  sockets w' = sockets w ∧ timeouts w' = timeouts w ∧
  intervals w' = intervals w ∧ next_timer w' = next_timer w ∧
  ws (this w') = ws (this w) ∧
  reconnectTimer (this w') = reconnectTimer (this w) ∧
  reconnectAttempts (this w') = reconnectAttempts (this w) ∧
  connectionState (this w') = connectionState (this w) ∧
  maxReconnectAttempts (config (this w')) = maxReconnectAttempts (config (this w)).
Proof.
  unfold store_authToken. destruct tok as [tok|]; [|done].
  by destruct (truthy tok).
Qed.

(** [connect] returns at once on an open socket. *)
Lemma connect_open w tok :
  ws_is_open w = true → connect E tok w = w.
Proof. intros H. unfold connect. by rewrite H. Qed.

(** When the socket is not open and the constructor accepts the URL,
    [connect] ends with a new listening socket as [this.ws]. *)
Lemma connect_opens w tok u :
  ws_is_open w = false →
  wsUrl E (config (this (store_authToken tok w))) = Some u →
  valid_url E u = true →
  connect E tok w =
  (let w1 := clearReconnectTimer
               (setConnectionState E ConnectionState.CONNECTING
                  (store_authToken tok w)) in
   upd_this (set_ws (Some (length (sockets w))))
     (set_sockets
        (sockets w ++ [mkSocket u WebSocket.CONNECTING true [] None]) w1)).
Proof.
  intros Hopen Hu Hv. unfold connect. rewrite Hopen.
  unfold connect_try, new_WebSocket.
  autorewrite with world. simpl. rewrite Hu, Hv.
  destruct (store_authToken_frame tok w) as (Hs & _).
  unfold setupEventListeners. simpl. autorewrite with world. rewrite Hs.
  rewrite lookup_last. simpl. by rewrite insert_last.
Qed.

End Connect.

(** ** The socket listeners and the remaining methods *)

Section Listeners.
Variable E : Env.

Lemma startHeartbeat_this w :
  this (startHeartbeat w) = set_heartbeatTimer (Some (next_timer w)) (this w).
Proof.
  unfold startHeartbeat, setInterval. simpl. by autorewrite with world.
Qed.

Lemma startHeartbeat_sockets w : sockets (startHeartbeat w) = sockets w.
Proof. unfold startHeartbeat, setInterval. simpl. by autorewrite with world. Qed.

Lemma startHeartbeat_timeouts w : timeouts (startHeartbeat w) = timeouts w.
Proof. unfold startHeartbeat, setInterval. simpl. by autorewrite with world. Qed.

Lemma onopen_this w :
  this (onopen E w) =
  set_heartbeatTimer (Some (next_timer w))
    (set_reconnectAttempts 0
       (set_connectionState ConnectionState.CONNECTED (this w))).
Proof.
  unfold onopen. rewrite startHeartbeat_this. simpl.
  by autorewrite with world.
Qed.

Lemma onopen_sockets w : sockets (onopen E w) = sockets w.
Proof.
  unfold onopen. rewrite startHeartbeat_sockets. simpl.
  by autorewrite with world.
Qed.

Lemma onopen_timeouts w : timeouts (onopen E w) = timeouts w.
Proof.
  unfold onopen. rewrite startHeartbeat_timeouts. simpl.
  by autorewrite with world.
Qed.

Lemma onerror_this w :
  this (onerror E w) = set_connectionState ConnectionState.ERROR (this w).
Proof. unfold onerror. by autorewrite with world. Qed.

Lemma onerror_sockets w : sockets (onerror E w) = sockets w.
Proof. unfold onerror. by autorewrite with world. Qed.

Lemma onerror_timeouts w : timeouts (onerror E w) = timeouts w.
Proof. unfold onerror. by autorewrite with world. Qed.

Lemma onmessage_frame parsed w :
  let w' := onmessage E parsed w in
  this w' = this w ∧ sockets w' = sockets w ∧ timeouts w' = timeouts w.
Proof.
  unfold onmessage. destruct parsed as [[ty d]|]; [|done].
  unfold handleMessage. case_decide; [done|].
  destruct (eventHandlers (this w) !! ty) as [hs|]; [|done].
  by destruct (foldl_dispatch E ty d hs w) as (-> & -> & -> & _).
Qed.

(** The normal-closure branch of [onclose]. *)
Lemma onclose_normal_this w :
  this (onclose E 1000 w) =
  set_connectionState ConnectionState.DISCONNECTED
    (set_heartbeatTimer None (this w)).
Proof.
  unfold onclose. rewrite decide_False by (intros H; by apply H).
  by autorewrite with world.
Qed.

(** The other branch hands over to the reconnection policy. *)
Lemma onclose_abnormal code w :
  code ≠ 1000%Z →
  onclose E code w =
  scheduleReconnect E
    (setConnectionState E ConnectionState.DISCONNECTED
       (clearHeartbeatTimer (log (LogDisconnected code) w))).
Proof. intros H. unfold onclose. by rewrite decide_True. Qed.

Lemma disconnect_this w :
  this (disconnect E w) =
  set_reconnectAttempts 0
    (set_connectionState ConnectionState.DISCONNECTED
       (set_ws None
          (set_heartbeatTimer None (set_reconnectTimer None (this w))))).
Proof.
  destruct w as [[wsv cfg st att rt ht eh csh] socks tos ints nt nw con cl].
  unfold disconnect, clearReconnectTimer, clearHeartbeatTimer. simpl.
  destruct rt, ht, wsv; simpl; unfold socket_close; simpl;
    repeat case_match; simpl; by autorewrite with world.
Qed.

(** [send] on a socket that is not open only writes the warning. *)
Lemma send_closed type data w :
  ws_is_open w = false → send type data w = Ok (log (WarnNotSent type data) w).
Proof. intros H. unfold send. by rewrite H. Qed.

(** [send] on an open socket hands the envelope to it. *)
Lemma send_open type data w :
  ws_is_open w = true →
  ∃ id s, ws (this w) = Some id ∧ sockets w !! id = Some s ∧
    send type data w =
    Ok (set_sockets
          (<[id := mkSocket (sock_url s) (readyState s) (listening s)
                     (sent s ++ [mkEnvelope type data (now w)]) (closeArgs s)]>
             (sockets w)) w).
Proof.
  intros H. unfold send. rewrite H. unfold ws_is_open in H.
  destruct (ws (this w)) as [id|]; [|done].
  destruct (sockets w !! id) as [s|] eqn:Hs; [|done].
  apply bool_decide_eq_true in H.
  exists id, s. repeat split; [done|]. unfold socket_send. by rewrite Hs, H.
Qed.

Lemma pending_cancel t l : pending t (cancel t l) = false.
Proof.
  apply bool_decide_eq_false. unfold cancel.
  intros ([t' d] & Ht & Hin)%list_elem_of_fmap.
  apply list_elem_of_filter in Hin as [Hne _]. simpl in *. by subst.
Qed.

Lemma cancel_subseteq t l : cancel t l ⊆ l.
Proof. intros p Hp. by apply list_elem_of_filter in Hp as [_ ?]. Qed.

End Listeners.

#[export] Hint Rewrite startHeartbeat_this startHeartbeat_sockets
  startHeartbeat_timeouts onopen_this onopen_sockets onopen_timeouts
  onerror_this onerror_sockets onerror_timeouts disconnect_this : world.

(** ** Idempotence of [connect] *)

Section ConnectIdempotence.
Variable E : Env.

(** C1, as amended.  [connect(token?)] is a no-op whenever the manager's
    current socket is open (the guard reads the socket's [readyState], not the
    connection state); this is the situation right after that socket's open
    event has put the manager in Connected.  When the socket is not open and
    the manager holds a reconnect timer in [reconnectTimer] (the Reconnecting
    state), [connect] cancels the timer it holds and makes the attempt at
    once: that timer is no longer pending, one socket is appended and becomes
    the current one, and the state is Connecting.  Only the held timer is
    cancelled: every other pending timeout stays pending, and when the held
    timer was the only pending one none is left, so that the attempt it stood
    for is superseded rather than duplicated. *)
Theorem connect_idempotence (w : World) (tok : option string) :
  (ws_is_open w = true → connect E tok w = w) ∧
  (∀ id s w',
     ws (this w) = Some id → sockets w !! id = Some s → listening s = true →
     step E w (SocketOpen id) = Some w' →
     connectionState (this w') = ConnectionState.CONNECTED ∧
     connect E tok w' = w') ∧
  (∀ t u,
     ws_is_open w = false →
     reconnectTimer (this w) = Some t →
     wsUrl E (config (this (store_authToken tok w))) = Some u →
     valid_url E u = true →
     let w' := connect E tok w in
     connectionState (this w') = ConnectionState.CONNECTING ∧
     reconnectTimer (this w') = None ∧
     timeouts w' = cancel t (timeouts w) ∧
     pending t (timeouts w') = false ∧
     sockets w' = sockets w ++ [mkSocket u WebSocket.CONNECTING true [] None] ∧
     ws (this w') = Some (length (sockets w)) ∧
     (∀ t' d, t' ≠ t → (t', d) ∈ timeouts w → (t', d) ∈ timeouts w') ∧
     (∀ d, timeouts w = [(t, d)] → timeouts w' = [])).
Proof.
  split; [apply connect_open|]. split.
  - intros id s w' Hws Hs Hl Hstep. simpl in Hstep.
    unfold socket_state in Hstep. rewrite Hs in Hstep. simpl in Hstep.
    destruct (readyState s) eqn:Hr; try done.
    injection Hstep as <-.
    assert (Hlen : id < length (sockets w)) by (by eapply lookup_lt_Some).
    unfold deliver, set_readyState. rewrite Hs. simpl.
    rewrite list_lookup_insert_eq by done. simpl. rewrite Hl.
    split; [by autorewrite with world|].
    apply connect_open. unfold ws_is_open. autorewrite with world. simpl.
    by rewrite Hws, list_lookup_insert_eq.
  - intros t u Hopen Ht Hu Hv w'. unfold w'.
    rewrite (connect_opens E w tok u Hopen Hu Hv). simpl.
    destruct (store_authToken_frame tok w)
      as (Hs & Hto & _ & _ & _ & Hrt & _ & _ & _).
    autorewrite with world. simpl. autorewrite with world.
    rewrite Hrt, Ht, Hto. rewrite pending_cancel.
    do 6 (split; [done|]). split.
    + intros t' d Hne Hin. unfold cancel. apply list_elem_of_filter. by split.
    + intros d ->. unfold cancel. rewrite filter_cons_False by (simpl; tauto).
      done.
Qed.

End ConnectIdempotence.

Lemma connect_idempotence_witness :
  connect plainEnv None (after [CallConnect None; SocketOpen 0]) =
    after [CallConnect None; SocketOpen 0] ∧
  connectionState (this (after [CallConnect None; SocketOpen 0])) =
    ConnectionState.CONNECTED ∧
  timeouts (after oneAbnormalClose) = [(2, 3000%Z)] ∧
  timeouts (connect plainEnv None (after oneAbnormalClose)) = [] ∧
  length (sockets (connect plainEnv None (after oneAbnormalClose))) = 2.
Proof.
  destruct (connect_idempotence plainEnv
              (after [CallConnect None; SocketOpen 0]) None) as (A & _ & _).
  destruct (connect_idempotence plainEnv (after [CallConnect None]) None)
    as (_ & B & _).
  destruct (connect_idempotence plainEnv (after oneAbnormalClose) None)
    as (_ & _ & C).
  split; [apply A; vm_compute; reflexivity|].
  split.
  { apply (B 0
             (mkSocket "ws://localhost:8000/ws" WebSocket.CONNECTING true [] None)
             (after [CallConnect None; SocketOpen 0]));
      vm_compute; reflexivity. }
  split; [vm_compute; reflexivity|].
  destruct (C 2 "ws://localhost:8000/ws?token=tok")
    as (_ & _ & _ & _ & Hs & _ & _ & Honly); try (vm_compute; reflexivity).
  split; [apply (Honly 3000%Z)|rewrite Hs]; vm_compute; reflexivity.
Defined.

(** C1, as stated, fails.  A second [connect()] while the state is Connecting
    opens a second socket and replaces the first as [this.ws]; a [connect()]
    while the state is Reconnecting opens a socket and replaces the scheduled
    attempt by cancelling its timer. *)
Lemma connect_while_connecting_opens_second_socket :
  run plainEnv (init plainEnv) [CallConnect None] = Some (after [CallConnect None]) ∧
  connectionState (this (after [CallConnect None])) = ConnectionState.CONNECTING ∧
  ws (this (after [CallConnect None])) = Some 0 ∧
  readyState <$> sockets (after [CallConnect None]) = [WebSocket.CONNECTING] ∧
  ws (this (connect plainEnv None (after [CallConnect None]))) = Some 1 ∧
  readyState <$> sockets (connect plainEnv None (after [CallConnect None])) =
    [WebSocket.CONNECTING; WebSocket.CONNECTING] ∧
  run plainEnv (init plainEnv) oneAbnormalClose = Some (after oneAbnormalClose) ∧
  connectionState (this (after oneAbnormalClose)) = ConnectionState.RECONNECTING ∧
  timeouts (after oneAbnormalClose) = [(2, 3000%Z)] ∧
  timeouts (connect plainEnv None (after oneAbnormalClose)) = [] ∧
  readyState <$> sockets (connect plainEnv None (after oneAbnormalClose)) =
    [WebSocket.CLOSED; WebSocket.CONNECTING] ∧
  ¬ spec_connect_idempotent plainEnv.
Proof.
  do 11 (split; [vm_compute; reflexivity|]).
  intros H.
  destruct (H (after [CallConnect None]) None) as [_ H'].
  { apply (run_reachable plainEnv _ [CallConnect None] (init plainEnv));
      [apply reach_refl|vm_compute; reflexivity]. }
  destruct H' as (Hs & _); [by left|].
  apply (f_equal length) in Hs. vm_compute in Hs. discriminate.
Qed.

(** [connect] cancels the timer the manager holds and no other: with two
    reconnect timers pending, the first stays pending after [connect()], and
    when it fires it opens one more socket next to the one [connect()] has
    just opened. *)
Lemma connect_leaves_other_timers :
  run plainEnv (init plainEnv) twoReconnectTimers = Some (after twoReconnectTimers) ∧
  reconnectTimer (this (after twoReconnectTimers)) = Some 2 ∧
  timeouts (after twoReconnectTimers) = [(1, 3000%Z); (2, 6000%Z)] ∧
  timeouts (connect plainEnv None (after twoReconnectTimers)) = [(1, 3000%Z)] ∧
  readyState <$> sockets (connect plainEnv None (after twoReconnectTimers)) =
    [WebSocket.CLOSED; WebSocket.CLOSED; WebSocket.CONNECTING] ∧
  readyState <$>
    sockets (after (twoReconnectTimers ++ [CallConnect None; ReconnectTimerFires 1])) =
    [WebSocket.CLOSED; WebSocket.CLOSED; WebSocket.CONNECTING; WebSocket.CONNECTING].
Proof. do 5 (split; [vm_compute; reflexivity|]). vm_compute. reflexivity. Qed.

(** ** The outcomes of [connect] and of a delivered socket event *)

Section Outcomes.
Variable E : Env.

Lemma connect_try_ok w w' :
  connect_try E w = Ok w' →
  ∃ u, wsUrl E (config (this w)) = Some u ∧ valid_url E u = true ∧
    w' = upd_this (set_ws (Some (length (sockets w))))
           (set_sockets
              (sockets w ++ [mkSocket u WebSocket.CONNECTING true [] None]) w).
Proof.
  unfold connect_try, new_WebSocket.
  destruct (wsUrl E (config (this w))) as [u|]; [|done].
  destruct (valid_url E u) eqn:Hv; [|done].
  intros [= <-]. exists u. repeat split; [done|].
  unfold setupEventListeners. simpl. rewrite lookup_last. simpl.
  by rewrite insert_last.
Qed.

(** [connect] either returns at once, or installs a new socket, or falls
    into its [catch] and evaluates the reconnection policy. *)
Lemma connect_cases w tok :
  let w1 := clearReconnectTimer
              (setConnectionState E ConnectionState.CONNECTING
                 (store_authToken tok w)) in
  (ws_is_open w = true ∧ connect E tok w = w) ∨
  (ws_is_open w = false ∧
   ∃ u, wsUrl E (config (this w1)) = Some u ∧ valid_url E u = true ∧
     connect E tok w =
     upd_this (set_ws (Some (length (sockets w1))))
       (set_sockets
          (sockets w1 ++ [mkSocket u WebSocket.CONNECTING true [] None]) w1)) ∨
  (ws_is_open w = false ∧
   connect E tok w =
   scheduleReconnect E
     (setConnectionState E ConnectionState.ERROR (log ErrConnectionFailed w1))).
Proof.
  intros w1. unfold connect. destruct (ws_is_open w); [by left|right].
  fold w1. destruct (connect_try E w1) as [w2|e] eqn:Htry.
  - left. split; [done|].
    apply connect_try_ok in Htry as (u & Hu & Hv & ->). by exists u.
  - by right.
Qed.

Lemma connect_prefix_frame tok w :
  let w1 := clearReconnectTimer
              (setConnectionState E ConnectionState.CONNECTING
                 (store_authToken tok w)) in
  sockets w1 = sockets w ∧
  reconnectAttempts (this w1) = reconnectAttempts (this w) ∧
  maxReconnectAttempts (config (this w1)) = maxReconnectAttempts (config (this w)) ∧
  config (this w1) = config (this (store_authToken tok w)) ∧
  timeouts w1 ⊆ timeouts w.
Proof.
  destruct (store_authToken_frame tok w)
    as (Hs & Hto & _ & _ & _ & _ & Ha & _ & Hm).
  simpl. autorewrite with world. simpl. autorewrite with world.
  repeat split; try done.
  destruct (reconnectTimer _); rewrite Hto; [apply cancel_subseteq|done].
Qed.

Lemma scheduleReconnect_counter w : counter_step w (scheduleReconnect E w).
Proof.
  unfold counter_step.
  destruct (decide (reconnectAttempts (this w) >= maxReconnectAttempts (config (this w)))%Z).
  - left. rewrite scheduleReconnect_exhausted by done. by autorewrite with world.
  - right. rewrite scheduleReconnect_retry_this by lia. simpl. repeat split; lia.
Qed.

Lemma scheduleReconnect_timeouts_exhausted w :
  (reconnectAttempts (this w) >= maxReconnectAttempts (config (this w)))%Z →
  timeouts (scheduleReconnect E w) = timeouts w ∧
  reconnectAttempts (this (scheduleReconnect E w)) = reconnectAttempts (this w) ∧
  connectionState (this (scheduleReconnect E w)) = ConnectionState.ERROR.
Proof.
  intros H. rewrite scheduleReconnect_exhausted by done.
  by autorewrite with world.
Qed.

Lemma connect_counter w tok : counter_step w (connect E tok w).
Proof.
  destruct (connect_prefix_frame tok w) as (_ & Ha & Hm & _).
  destruct (connect_cases w tok) as [[_ ->]|[(_ & u & _ & _ & ->)|[_ ->]]].
  - by left.
  - left. simpl. exact Ha.
  - match goal with |- counter_step _ (scheduleReconnect E ?w2) =>
      pose proof (scheduleReconnect_counter w2) as H;
      assert (reconnectAttempts (this w2) = reconnectAttempts (this w)) as Ha2
        by (autorewrite with world; simpl; exact Ha);
      assert (maxReconnectAttempts (config (this w2)) =
              maxReconnectAttempts (config (this w))) as Hm2
        by (autorewrite with world; simpl; exact Hm)
    end.
    unfold counter_step in *. rewrite Ha2, Hm2 in H. exact H.
Qed.

Lemma onclose_counter w code : counter_step w (onclose E code w).
Proof.
  destruct (decide (code = 1000%Z)) as [->|Hc].
  - left. by rewrite onclose_normal_this.
  - rewrite onclose_abnormal by done.
    match goal with |- counter_step _ (scheduleReconnect E ?w2) =>
      pose proof (scheduleReconnect_counter w2) as H;
      assert (this w2 =
              set_connectionState ConnectionState.DISCONNECTED
                (set_heartbeatTimer None (this w))) as Hw2
        by (by autorewrite with world)
    end.
    unfold counter_step in *. rewrite Hw2 in H. exact H.
Qed.

Lemma set_readyState_this id r w : this (set_readyState id r w) = this w.
Proof. unfold set_readyState. by destruct (sockets w !! id). Qed.

Lemma set_readyState_timeouts id r w :
  timeouts (set_readyState id r w) = timeouts w.
Proof. unfold set_readyState. by destruct (sockets w !! id). Qed.

Lemma settle_send_frame type data w :
  let w' := settle w (send type data w) in
  this w' = this w ∧ timeouts w' = timeouts w.
Proof.
  destruct (ws_is_open w) eqn:Hopen.
  - destruct (send_open type data w Hopen) as (id & s & _ & _ & Hsend).
    simpl. unfold send in *. by rewrite Hsend.
  - simpl. unfold send. by rewrite Hopen.
Qed.

Lemma settle_heartbeat_frame w :
  let w' := settle w (heartbeat w) in
  this w' = this w ∧ timeouts w' = timeouts w.
Proof.
  unfold heartbeat. destruct (ws_is_open w); [|done].
  apply (settle_send_frame "ping" None w).
Qed.

End Outcomes.

#[export] Hint Rewrite set_readyState_this set_readyState_timeouts : world.

(** ** The reconnect attempt counter *)

Section Counter.
Variable E : Env.

Lemma deliver_cases id listener w :
  deliver id listener w = w ∨
  (∃ s, sockets w !! id = Some s ∧ listening s = true ∧
        deliver id listener w = listener w).
Proof.
  unfold deliver. destruct (sockets w !! id) as [s|] eqn:Hs; [|by left].
  destruct (listening s) eqn:Hl; [right; by exists s|by left].
Qed.

(** How a single step moves the counter. *)
Lemma step_counter (w w' : World) (e : Event) :
  step E w e = Some w' →
  reconnectAttempts (this w') = reconnectAttempts (this w) ∨
  (reconnectAttempts (this w') = 0%Z ∧
   connectionState (this w') = ConnectionState.CONNECTED ∧
   ∃ id, e = SocketOpen id) ∨
  (reconnectAttempts (this w') = 0%Z ∧
   connectionState (this w') = ConnectionState.DISCONNECTED ∧
   e = CallDisconnect) ∨
  (reconnectAttempts (this w') = (reconnectAttempts (this w) + 1)%Z ∧
   connectionState (this w') = ConnectionState.RECONNECTING ∧
   (reconnectAttempts (this w) < maxReconnectAttempts (config (this w)))%Z).
Proof.
  intros Hstep.
  destruct e; simpl in Hstep.
  - injection Hstep as <-.
    destruct (connect_counter E w authToken0) as [H|H]; [by left|by do 3 right].
  - injection Hstep as <-. do 2 right. left.
    by rewrite disconnect_this.
  - injection Hstep as <-. left.
    by destruct (settle_send_frame type data w) as [-> _].
  - injection Hstep as <-. by left.
  - injection Hstep as <-. left. unfold unsubscribe.
    destruct (eventHandlers (this w) !! eventType); [|done].
    by case_decide.
  - injection Hstep as <-. by left.
  - injection Hstep as <-. by left.
  - destruct (socket_state id w) as [[]|]; try done.
    injection Hstep as <-.
    destruct (deliver_cases id (onopen E) (set_readyState id WebSocket.OPEN w))
      as [->|(s & _ & _ & ->)].
    + left. by autorewrite with world.
    + right. left. autorewrite with world. simpl. eauto.
  - assert (w' = deliver id (onclose E code)
                   (set_readyState id WebSocket.CLOSED w)) as ->
      by (destruct (socket_state id w) as [[]|]; congruence).
    destruct (deliver_cases id (onclose E code)
                (set_readyState id WebSocket.CLOSED w))
      as [->|(s & _ & _ & ->)].
    + left. by autorewrite with world.
    + destruct (onclose_counter E (set_readyState id WebSocket.CLOSED w) code)
        as [H|H]; autorewrite with world in H; [by left|by do 3 right].
  - destruct (socket_state id w); [|done]. injection Hstep as <-.
    destruct (deliver_cases id (onerror E) w) as [->|(s & _ & _ & ->)];
      left; [done|by autorewrite with world].
  - destruct (socket_state id w) as [[]|]; try done.
    injection Hstep as <-.
    destruct (deliver_cases id (onmessage E parsed) w)
      as [->|(s & _ & _ & ->)]; left; [done|].
    by destruct (onmessage_frame E parsed w) as [-> _].
  - destruct (pending t (timeouts w)); [|done]. injection Hstep as <-.
    destruct (connect_counter E (set_timeouts (cancel t (timeouts w)) w) None)
      as [H|H]; [by left|by do 3 right].
  - destruct (pending t (intervals w)); [|done]. injection Hstep as <-.
    left. by destruct (settle_heartbeat_frame w) as [-> _].
  - case_decide; [|done]. injection Hstep as <-. by left.
Qed.

Lemma step_open_resets (w w' : World) id s :
  step E w (SocketOpen id) = Some w' →
  sockets w !! id = Some s → listening s = true →
  reconnectAttempts (this w') = 0%Z ∧
  connectionState (this w') = ConnectionState.CONNECTED.
Proof.
  intros Hstep Hs Hl. simpl in Hstep.
  unfold socket_state in Hstep. rewrite Hs in Hstep. simpl in Hstep.
  destruct (readyState s); try done. injection Hstep as <-.
  assert (id < length (sockets w)) by (by eapply lookup_lt_Some).
  unfold deliver, set_readyState. rewrite Hs. simpl.
  rewrite list_lookup_insert_eq by done. simpl. rewrite Hl.
  by autorewrite with world.
Qed.

(** C2, as amended.  In one step of the manager the reconnect attempt
    counter either keeps its value, or is reset to 0 by a socket's open event
    (which leaves the state Connected) or by [disconnect()] (which leaves it
    Disconnected), or goes up by exactly one in a step that ends in
    Reconnecting and started with attempts to spare.  Conversely the open
    event of a socket the manager listens to and [disconnect()] always leave
    the counter at 0. *)
Theorem reconnectAttempts_changes (w w' : World) (e : Event) :
  step E w e = Some w' →
  (reconnectAttempts (this w') = reconnectAttempts (this w) ∨
   (reconnectAttempts (this w') = 0%Z ∧
    connectionState (this w') = ConnectionState.CONNECTED ∧
    ∃ id, e = SocketOpen id) ∨
   (reconnectAttempts (this w') = 0%Z ∧
    connectionState (this w') = ConnectionState.DISCONNECTED ∧
    e = CallDisconnect) ∨
   (reconnectAttempts (this w') = (reconnectAttempts (this w) + 1)%Z ∧
    connectionState (this w') = ConnectionState.RECONNECTING ∧
    (reconnectAttempts (this w) < maxReconnectAttempts (config (this w)))%Z)) ∧
  (∀ id s, e = SocketOpen id → sockets w !! id = Some s → listening s = true →
     reconnectAttempts (this w') = 0%Z ∧
     connectionState (this w') = ConnectionState.CONNECTED) ∧
  (e = CallDisconnect →
     reconnectAttempts (this w') = 0%Z ∧
     connectionState (this w') = ConnectionState.DISCONNECTED).
Proof.
  intros Hstep. split; [by apply step_counter|]. split.
  - intros id s -> Hs Hl. by eapply step_open_resets.
  - intros ->. simpl in Hstep. injection Hstep as <-.
    by rewrite disconnect_this.
Qed.

End Counter.

Lemma reconnectAttempts_changes_witness :
  reconnectAttempts (this (after oneAbnormalClose)) = 1%Z ∧
  reconnectAttempts (this (after (oneAbnormalClose ++ [CallDisconnect]))) = 0%Z ∧
  connectionState (this (after (oneAbnormalClose ++ [CallDisconnect]))) =
    ConnectionState.DISCONNECTED.
Proof.
  assert (step plainEnv (after oneAbnormalClose) CallDisconnect =
          Some (after (oneAbnormalClose ++ [CallDisconnect]))) as Hstep
    by (vm_compute; reflexivity).
  destruct (reconnectAttempts_changes plainEnv _ _ _ Hstep) as (_ & _ & H).
  split; [vm_compute; reflexivity|]. apply H. reflexivity.
Defined.

(** C2, as stated, fails: [disconnect()] called while the manager waits for
    the reconnect timer resets the counter from 1 to 0 although the
    connection does not reach Connected. *)
Lemma disconnect_resets_counter :
  run plainEnv (init plainEnv) oneAbnormalClose = Some (after oneAbnormalClose) ∧
  connectionState (this (after oneAbnormalClose)) = ConnectionState.RECONNECTING ∧
  reconnectAttempts (this (after oneAbnormalClose)) = 1%Z ∧
  step plainEnv (after oneAbnormalClose) CallDisconnect =
    Some (after (oneAbnormalClose ++ [CallDisconnect])) ∧
  reconnectAttempts (this (after (oneAbnormalClose ++ [CallDisconnect]))) = 0%Z ∧
  connectionState (this (after (oneAbnormalClose ++ [CallDisconnect]))) =
    ConnectionState.DISCONNECTED ∧
  ¬ spec_counter_invariant plainEnv.
Proof.
  do 6 (split; [vm_compute; reflexivity|]).
  intros H.
  destruct (H (after oneAbnormalClose) CallDisconnect
              (after (oneAbnormalClose ++ [CallDisconnect]))) as [[_ Hs]|[Ha _]].
  - apply (run_reachable plainEnv _ oneAbnormalClose (init plainEnv));
      [apply reach_refl|vm_compute; reflexivity].
  - vm_compute; reflexivity.
  - vm_compute. discriminate.
  - vm_compute in Hs. discriminate.
  - vm_compute in Ha. discriminate.
Qed.

(** ** The configuration after construction *)

Section Config.
Variable E : Env.

Lemma connect_config w tok :
  config (this (connect E tok w)) =
  if ws_is_open w then config (this w)
  else config (this (store_authToken tok w)).
Proof.
  destruct (connect_prefix_frame E tok w) as (_ & _ & _ & Hc & _).
  destruct (connect_cases E w tok)
    as [[-> ->]|[(-> & u & _ & _ & ->)|[-> ->]]]; [done|exact Hc|].
  rewrite scheduleReconnect_config. autorewrite with world. simpl. exact Hc.
Qed.

Lemma store_authToken_config tok w :
  config (this (store_authToken tok w)) =
  if truthy_arg tok then config (set_authToken (default "" tok) (this w))
  else config (this w).
Proof.
  unfold store_authToken, truthy_arg. destruct tok as [tok|]; [|done].
  by destruct (truthy tok).
Qed.

Lemma onclose_config code w : config (this (onclose E code w)) = config (this w).
Proof.
  destruct (decide (code = 1000%Z)) as [->|Hc].
  - by rewrite onclose_normal_this.
  - rewrite onclose_abnormal by done. rewrite scheduleReconnect_config.
    by autorewrite with world.
Qed.

(** Only [connect(token)] with a truthy token, on a socket that is not open,
    writes the configuration, and it writes [authToken] alone. *)
Lemma step_config w e w' :
  step E w e = Some w' →
  config (this w') = config (this w) ∨
  (∃ tok, e = CallConnect (Some tok) ∧ truthy tok = true ∧
          ws_is_open w = false ∧
          config (this w') = config (set_authToken tok (this w))).
Proof.
  intros Hstep. destruct e; simpl in Hstep.
  - injection Hstep as <-. rewrite connect_config, store_authToken_config.
    destruct (ws_is_open w); [by left|].
    destruct authToken0 as [tok|]; simpl; [|by left].
    destruct (truthy tok) eqn:Ht; [right; by exists tok|by left].
  - injection Hstep as <-. left. by rewrite disconnect_this.
  - injection Hstep as <-. left.
    by destruct (settle_send_frame type data w) as [-> _].
  - injection Hstep as <-. by left.
  - injection Hstep as <-. left. unfold unsubscribe.
    destruct (eventHandlers (this w) !! eventType); [|done].
    by case_decide.
  - injection Hstep as <-. by left.
  - injection Hstep as <-. by left.
  - destruct (socket_state id w) as [[]|]; try done.
    injection Hstep as <-. left.
    destruct (deliver_cases id (onopen E) (set_readyState id WebSocket.OPEN w))
      as [->|(s & _ & _ & ->)]; by autorewrite with world.
  - assert (w' = deliver id (onclose E code)
                   (set_readyState id WebSocket.CLOSED w)) as ->
      by (destruct (socket_state id w) as [[]|]; congruence).
    left.
    destruct (deliver_cases id (onclose E code)
                (set_readyState id WebSocket.CLOSED w))
      as [->|(s & _ & _ & ->)]; rewrite ?onclose_config;
      by autorewrite with world.
  - destruct (socket_state id w); [|done]. injection Hstep as <-. left.
    destruct (deliver_cases id (onerror E) w) as [->|(s & _ & _ & ->)];
      by autorewrite with world.
  - destruct (socket_state id w) as [[]|]; try done.
    injection Hstep as <-. left.
    destruct (deliver_cases id (onmessage E parsed) w)
      as [->|(s & _ & _ & ->)]; [done|].
    by destruct (onmessage_frame E parsed w) as [-> _].
  - destruct (pending t (timeouts w)); [|done]. injection Hstep as <-.
    left. rewrite connect_config. simpl. by destruct (ws_is_open _).
  - destruct (pending t (intervals w)); [|done]. injection Hstep as <-.
    left. by destruct (settle_heartbeat_frame w) as [-> _].
  - case_decide; [|done]. injection Hstep as <-. by left.
Qed.

Lemma step_maxReconnectAttempts w e w' :
  step E w e = Some w' →
  maxReconnectAttempts (config (this w')) = maxReconnectAttempts (config (this w)) ∧
  reconnectInterval (config (this w')) = reconnectInterval (config (this w)) ∧
  url (config (this w')) = url (config (this w)).
Proof.
  intros [->|(tok & _ & _ & _ & ->)]%step_config; done.
Qed.

End Config.

(** ** The reconnection delay *)

Section Backoff.
Variable E : Env.

Lemma scheduled_delay_retry w :
  (reconnectAttempts (this w) < maxReconnectAttempts (config (this w)))%Z →
  scheduled_delay (scheduleReconnect E w) =
  Some (reconnectInterval (config (this w)) * (reconnectAttempts (this w) + 1))%Z.
Proof.
  intros H. unfold scheduled_delay.
  rewrite scheduleReconnect_retry_timeouts by done. by rewrite last_snoc.
Qed.

(** C3.  When the policy schedules attempt number [n] (the counter stood at
    [n - 1] and [n] does not exceed the maximum), the timer it sets has delay
    [reconnectInterval * n].  With a non-negative [reconnectInterval] (the
    default is 3000) the delay of attempt [n + 1], scheduled from any state
    with the same [reconnectInterval], is at least the delay of attempt
    [n]. *)
Theorem reconnect_delay_linear (w : World) (n : Z) :
  reconnectAttempts (this w) = (n - 1)%Z →
  (n <= maxReconnectAttempts (config (this w)))%Z →
  let w' := scheduleReconnect E w in
  reconnectAttempts (this w') = n ∧
  reconnectTimer (this w') = Some (next_timer w) ∧
  timeouts w' =
    timeouts w ++ [(next_timer w, (reconnectInterval (config (this w)) * n)%Z)] ∧
  scheduled_delay w' = Some (reconnectInterval (config (this w)) * n)%Z ∧
  (0 <= reconnectInterval (DEFAULT_CONFIG E))%Z ∧
  (∀ w2,
     reconnectInterval (config (this w2)) = reconnectInterval (config (this w)) →
     reconnectAttempts (this w2) = n →
     (n + 1 <= maxReconnectAttempts (config (this w2)))%Z →
     (0 <= reconnectInterval (config (this w)))%Z →
     ∃ d1 d2,
       scheduled_delay w' = Some d1 ∧
       scheduled_delay (scheduleReconnect E w2) = Some d2 ∧
       d2 = (reconnectInterval (config (this w)) * (n + 1))%Z ∧
       (d1 <= d2)%Z).
Proof.
  intros Ha Hn w'. unfold w'.
  assert (reconnectAttempts (this w) < maxReconnectAttempts (config (this w)))%Z
    as Hlt by lia.
  rewrite scheduleReconnect_retry_this, scheduleReconnect_retry_timeouts,
    scheduled_delay_retry by done.
  rewrite Ha. replace (n - 1 + 1)%Z with n by lia. simpl.
  repeat split; try done.
  intros w2 Hc Ha2 Hn2 Hpos.
  exists (reconnectInterval (config (this w)) * n)%Z,
         (reconnectInterval (config (this w)) * (n + 1))%Z.
  repeat split; [|nia].
  rewrite scheduled_delay_retry by lia. by rewrite Hc, Ha2.
Qed.

End Backoff.

Lemma reconnect_delay_linear_witness :
  scheduled_delay
    (scheduleReconnect plainEnv (after [CallConnect None; SocketOpen 0])) =
    Some 3000%Z ∧
  scheduled_delay
    (scheduleReconnect plainEnv
       (after (oneAbnormalClose ++ [ReconnectTimerFires 2]))) =
    Some 6000%Z.
Proof.
  destruct (reconnect_delay_linear plainEnv
              (after [CallConnect None; SocketOpen 0]) 1)
    as (_ & _ & _ & Hd & _ & Hmono);
    [vm_compute; reflexivity|vm_compute; discriminate|].
  split; [exact Hd|].
  destruct (Hmono (after (oneAbnormalClose ++ [ReconnectTimerFires 2])))
    as (d1 & d2 & _ & Hd2 & -> & _);
    [vm_compute; reflexivity|vm_compute; reflexivity|
     vm_compute; discriminate|vm_compute; discriminate|].
  exact Hd2.
Defined.

(** ** Socket close events *)

Section Close.
Variable E : Env.

Lemma listening_lookup (l : list Socket) i s :
  Forall (λ s, listening s = true) l → l !! i = Some s → listening s = true.
Proof. intros H Hs. by apply (Forall_lookup_1 _ _ _ _ H Hs). Qed.

Lemma set_readyState_listening id r w :
  Forall (λ s, listening s = true) (sockets w) →
  Forall (λ s, listening s = true) (sockets (set_readyState id r w)).
Proof.
  intros H. unfold set_readyState.
  destruct (sockets w !! id) as [s|] eqn:Hs; [|done]. simpl.
  apply Forall_insert; [done|]. simpl. by eapply listening_lookup.
Qed.

Lemma onclose_sockets code w : sockets (onclose E code w) = sockets w.
Proof.
  unfold onclose. case_decide; by autorewrite with world.
Qed.

Lemma connect_listening tok w :
  Forall (λ s, listening s = true) (sockets w) →
  Forall (λ s, listening s = true) (sockets (connect E tok w)).
Proof.
  intros H. destruct (connect_prefix_frame E tok w) as (Hs & _).
  destruct (connect_cases E w tok) as [[_ ->]|[(_ & u & _ & _ & ->)|[_ ->]]].
  - done.
  - simpl. rewrite Hs. apply Forall_app. split; [done|]. by apply Forall_singleton.
  - autorewrite with world. simpl. by rewrite Hs.
Qed.

Lemma disconnect_listening w :
  Forall (λ s, listening s = true) (sockets w) →
  Forall (λ s, listening s = true) (sockets (disconnect E w)).
Proof.
  intros H. unfold disconnect. simpl. autorewrite with world.
  match goal with |- context [match ?o with Some _ => _ | None => _ end] =>
    destruct o as [id|]
  end; simpl; autorewrite with world; [|done].
  unfold socket_close. autorewrite with world.
  destruct (sockets w !! id) as [s|] eqn:Hs; [|by autorewrite with world].
  destruct (readyState s); simpl; autorewrite with world; try done;
    (apply Forall_insert; [done|]; simpl; by eapply listening_lookup).
Qed.

Lemma settle_send_listening type data w :
  Forall (λ s, listening s = true) (sockets w) →
  Forall (λ s, listening s = true) (sockets (settle w (send type data w))).
Proof.
  intros H. destruct (ws_is_open w) eqn:Hopen.
  - destruct (send_open type data w Hopen) as (id & s & _ & Hs & ->). simpl.
    apply Forall_insert; [done|]. simpl. by eapply listening_lookup.
  - by rewrite send_closed.
Qed.

(** Every socket the manager has created carries its listeners. *)
Lemma listening_step w e w' :
  Forall (λ s, listening s = true) (sockets w) →
  step E w e = Some w' →
  Forall (λ s, listening s = true) (sockets w').
Proof.
  intros H Hstep. destruct e; simpl in Hstep.
  - injection Hstep as <-. by apply connect_listening.
  - injection Hstep as <-. by apply disconnect_listening.
  - injection Hstep as <-. by apply settle_send_listening.
  - by injection Hstep as <-.
  - injection Hstep as <-. unfold unsubscribe.
    destruct (eventHandlers (this w) !! eventType); [|done].
    by case_decide.
  - by injection Hstep as <-.
  - by injection Hstep as <-.
  - destruct (socket_state id w) as [[]|]; try done.
    injection Hstep as <-.
    destruct (deliver_cases id (onopen E) (set_readyState id WebSocket.OPEN w))
      as [->|(s & _ & _ & ->)]; autorewrite with world;
      by apply set_readyState_listening.
  - assert (w' = deliver id (onclose E code)
                   (set_readyState id WebSocket.CLOSED w)) as ->
      by (destruct (socket_state id w) as [[]|]; congruence).
    destruct (deliver_cases id (onclose E code)
                (set_readyState id WebSocket.CLOSED w))
      as [->|(s & _ & _ & ->)]; rewrite ?onclose_sockets;
      by apply set_readyState_listening.
  - destruct (socket_state id w); [|done]. injection Hstep as <-.
    destruct (deliver_cases id (onerror E) w) as [->|(s & _ & _ & ->)];
      by autorewrite with world.
  - destruct (socket_state id w) as [[]|]; try done.
    injection Hstep as <-.
    destruct (deliver_cases id (onmessage E parsed) w)
      as [->|(s & _ & _ & ->)]; [done|].
    by destruct (onmessage_frame E parsed w) as (_ & -> & _).
  - destruct (pending t (timeouts w)); [|done]. injection Hstep as <-.
    by apply connect_listening.
  - destruct (pending t (intervals w)); [|done]. injection Hstep as <-.
    unfold heartbeat. destruct (ws_is_open w); [|done].
    by apply settle_send_listening.
  - case_decide; [|done]. by injection Hstep as <-.
Qed.

Lemma listening_reachable w :
  reachable_from E (init E) w → Forall (λ s, listening s = true) (sockets w).
Proof.
  induction 1 as [|w e w' _ IH Hstep]; [by apply Forall_nil|].
  by eapply listening_step.
Qed.

(** C5.  [onclose] first moves the manager to Disconnected.  With the
    normal-closure code 1000 that is all: no timer is set, the counter and
    the sockets are untouched.  With any other code the reconnection policy
    is evaluated on the Disconnected state: with attempts to spare the
    manager ends in Reconnecting with the counter incremented and one new
    timer; otherwise it ends in Error with no timer.  In every reachable
    state, the close event of any socket runs exactly this listener. *)
Theorem onclose_policy (w : World) (code : Z) :
  let w1 := setConnectionState E ConnectionState.DISCONNECTED
              (clearHeartbeatTimer (log (LogDisconnected code) w)) in
  connectionState (this w1) = ConnectionState.DISCONNECTED ∧
  (code = 1000%Z →
     onclose E code w = w1 ∧
     timeouts (onclose E code w) = timeouts w ∧
     sockets (onclose E code w) = sockets w ∧
     reconnectAttempts (this (onclose E code w)) = reconnectAttempts (this w) ∧
     reconnectTimer (this (onclose E code w)) = reconnectTimer (this w)) ∧
  (code ≠ 1000%Z →
     onclose E code w = scheduleReconnect E w1 ∧
     sockets (onclose E code w) = sockets w ∧
     ((reconnectAttempts (this w) < maxReconnectAttempts (config (this w)))%Z →
        connectionState (this (onclose E code w)) = ConnectionState.RECONNECTING ∧
        reconnectAttempts (this (onclose E code w)) =
          (reconnectAttempts (this w) + 1)%Z ∧
        timeouts (onclose E code w) =
          timeouts w ++
            [(next_timer w,
              (reconnectInterval (config (this w)) *
               (reconnectAttempts (this w) + 1))%Z)]) ∧
     ((reconnectAttempts (this w) >= maxReconnectAttempts (config (this w)))%Z →
        connectionState (this (onclose E code w)) = ConnectionState.ERROR ∧
        reconnectAttempts (this (onclose E code w)) = reconnectAttempts (this w) ∧
        timeouts (onclose E code w) = timeouts w)) ∧
  (∀ id w',
     reachable_from E (init E) w →
     step E w (SocketClose id code) = Some w' →
     w' = onclose E code (set_readyState id WebSocket.CLOSED w)).
Proof.
  intros w1.
  assert (this w1 = set_connectionState ConnectionState.DISCONNECTED
                      (set_heartbeatTimer None (this w))) as Hthis
    by (unfold w1; by autorewrite with world).
  assert (timeouts w1 = timeouts w ∧ sockets w1 = sockets w ∧
          next_timer w1 = next_timer w) as (Hto & Hso & Hnt)
    by (unfold w1; by autorewrite with world).
  split; [by rewrite Hthis|]. split; [|split].
  - intros ->. unfold onclose. rewrite decide_False by (intros H; by apply H).
    fold w1. by rewrite Hthis, Hto, Hso.
  - intros Hc. rewrite onclose_abnormal by done. fold w1.
    split; [done|]. split; [by rewrite scheduleReconnect_sockets|]. split.
    + intros Hlt.
      rewrite scheduleReconnect_retry_this, scheduleReconnect_retry_timeouts
        by (rewrite Hthis; exact Hlt).
      by rewrite Hthis, Hto, Hnt.
    + intros Hge.
      destruct (scheduleReconnect_timeouts_exhausted E w1) as (-> & -> & ->);
        [by rewrite Hthis|]. by rewrite Hthis, Hto.
  - intros id w' Hreach Hstep. simpl in Hstep. unfold socket_state in Hstep.
    destruct (sockets w !! id) as [s|] eqn:Hs; [|done]. simpl in Hstep.
    assert (listening s = true) as Hl
      by (eapply listening_lookup; [by apply listening_reachable|done]).
    assert (id < length (sockets w)) by (by eapply lookup_lt_Some).
    assert (deliver id (onclose E code) (set_readyState id WebSocket.CLOSED w) =
            onclose E code (set_readyState id WebSocket.CLOSED w)) as Hd.
    { unfold deliver, set_readyState. rewrite Hs. simpl.
      rewrite list_lookup_insert_eq by done. simpl. by rewrite Hl. }
    rewrite Hd in Hstep. destruct (readyState s); congruence.
Qed.

End Close.

Lemma onclose_policy_witness :
  connectionState (this (onclose plainEnv 1000 (after [CallConnect None; SocketOpen 0]))) =
    ConnectionState.DISCONNECTED ∧
  timeouts (onclose plainEnv 1000 (after [CallConnect None; SocketOpen 0])) = [] ∧
  connectionState (this (onclose plainEnv 1006 (after [CallConnect None; SocketOpen 0]))) =
    ConnectionState.RECONNECTING ∧
  connectionState (this (onclose plainEnv 1006 (after fiveAbnormalCloses))) =
    ConnectionState.ERROR ∧
  after oneAbnormalClose =
    onclose plainEnv 1006
      (set_readyState 0 WebSocket.CLOSED
         (after [CallConnect (Some "tok"); SocketOpen 0])).
Proof.
  destruct (onclose_policy plainEnv (after [CallConnect None; SocketOpen 0]) 1000)
    as (Hd & Hn & _ & _).
  destruct Hn as (Heq & Hto & _); [reflexivity|].
  destruct (onclose_policy plainEnv (after [CallConnect None; SocketOpen 0]) 1006)
    as (_ & _ & Ha & _).
  destruct Ha as (_ & _ & Hretry & _); [discriminate|].
  destruct Hretry as (Hr & _); [vm_compute; reflexivity|].
  destruct (onclose_policy plainEnv (after fiveAbnormalCloses) 1006)
    as (_ & _ & Hb & _).
  destruct Hb as (_ & _ & _ & Hstop); [discriminate|].
  destruct Hstop as (He & _); [vm_compute; discriminate|].
  destruct (onclose_policy plainEnv
              (after [CallConnect (Some "tok"); SocketOpen 0]) 1006)
    as (_ & _ & _ & Hev).
  split; [by rewrite Heq|]. split; [rewrite Hto; vm_compute; reflexivity|].
  split; [exact Hr|]. split; [exact He|].
  apply (Hev 0).
  - apply (run_reachable plainEnv _ [CallConnect (Some "tok"); SocketOpen 0]
             (init plainEnv)); [apply reach_refl|vm_compute; reflexivity].
  - vm_compute. reflexivity.
Defined.

(** ** [send] *)

Section Send.
Variable E : Env.

Lemma disconnect_closes w : ws_is_open (disconnect E w) = false.
Proof. unfold ws_is_open. by rewrite disconnect_this. Qed.

(** C6, as amended.  When the manager has no socket or its socket is not open
    (in particular before the first [connect] and after [disconnect()]),
    [send] returns normally and only writes the warning to the console: the
    manager, every socket, and the timers are as before, so nothing is
    transmitted and nothing is queued. *)
Theorem send_when_not_open (w : World) (type : string) (data : option Payload) :
  (ws_is_open w = false →
     send type data w = Ok (log (WarnNotSent type data) w) ∧
     ∀ w', send type data w = Ok w' →
       this w' = this w ∧ sockets w' = sockets w ∧
       timeouts w' = timeouts w ∧ intervals w' = intervals w ∧
       console w' = console w ++ [WarnNotSent type data]) ∧
  ws_is_open (init E) = false ∧
  ws_is_open (disconnect E w) = false.
Proof.
  split; [|split].
  - intros Hopen. rewrite send_closed by done. split; [done|].
    by intros w' [= <-].
  - done.
  - apply disconnect_closes.
Qed.

End Send.

Lemma send_when_not_open_witness :
  send "chat" (Some "hello") (after oneAbnormalClose) =
    Ok (log (WarnNotSent "chat" (Some "hello")) (after oneAbnormalClose)) ∧
  sent <$> sockets (log (WarnNotSent "chat" (Some "hello")) (after oneAbnormalClose)) =
    [[]].
Proof.
  destruct (send_when_not_open plainEnv (after oneAbnormalClose)
              "chat" (Some "hello")) as (H & _).
  destruct H as (Hsend & _); [vm_compute; reflexivity|].
  split; [exact Hsend|vm_compute; reflexivity].
Defined.

(** C6, as stated, fails: after two [connect()] calls the close of the first
    socket leaves the manager in Reconnecting while its current socket is
    open, and [send] transmits over it. *)
Lemma send_transmits_while_reconnecting :
  run plainEnv (init plainEnv) doubleConnect = Some (after doubleConnect) ∧
  connectionState (this (after doubleConnect)) = ConnectionState.RECONNECTING ∧
  ws (this (after doubleConnect)) = Some 1 ∧
  readyState <$> sockets (after doubleConnect) =
    [WebSocket.CLOSED; WebSocket.OPEN] ∧
  sent <$> sockets (settle (after doubleConnect)
                      (send "chat" (Some "hello") (after doubleConnect))) =
    [[]; [mkEnvelope "chat" (Some "hello") 0]] ∧
  ¬ spec_send_dropped plainEnv.
Proof.
  do 5 (split; [vm_compute; reflexivity|]).
  intros H.
  destruct (H (after doubleConnect) "chat" (Some "hello")) as (w' & Hs & _ & Hso).
  - apply (run_reachable plainEnv _ doubleConnect (init plainEnv));
      [apply reach_refl|vm_compute; reflexivity].
  - vm_compute. discriminate.
  - vm_compute in Hs. injection Hs as <-. vm_compute in Hso. discriminate.
Qed.

(** ** The bound on automatic reconnection *)

Section Exhaustion.
Variable E : Env.

Lemma onclose_exhausted code w :
  (reconnectAttempts (this w) >= maxReconnectAttempts (config (this w)))%Z →
  timeouts (onclose E code w) = timeouts w ∧
  reconnectAttempts (this (onclose E code w)) = reconnectAttempts (this w) ∧
  (code ≠ 1000%Z → connectionState (this (onclose E code w)) = ConnectionState.ERROR).
Proof.
  intros Hge. destruct (decide (code = 1000%Z)) as [->|Hc].
  - rewrite onclose_normal_this. unfold onclose.
    rewrite decide_False by (intros H; by apply H).
    by autorewrite with world.
  - rewrite onclose_abnormal by done.
    match goal with |- context [scheduleReconnect E ?w1] =>
      destruct (scheduleReconnect_timeouts_exhausted E w1) as (-> & -> & ->);
        [by autorewrite with world|by autorewrite with world]
    end.
Qed.

Lemma connect_exhausted tok w :
  (reconnectAttempts (this w) >= maxReconnectAttempts (config (this w)))%Z →
  timeouts (connect E tok w) ⊆ timeouts w ∧
  reconnectAttempts (this (connect E tok w)) = reconnectAttempts (this w).
Proof.
  intros Hge.
  destruct (connect_prefix_frame E tok w) as (_ & Ha & Hm & _ & Hsub).
  destruct (connect_cases E w tok) as [[_ ->]|[(_ & u & _ & _ & ->)|[_ ->]]].
  - done.
  - by simpl.
  - match goal with |- context [scheduleReconnect E ?w2] =>
      destruct (scheduleReconnect_timeouts_exhausted E w2) as (-> & -> & _)
    end.
    + autorewrite with world. simpl. lia.
    + by autorewrite with world.
Qed.

(** With the attempts used up, no step other than a socket opening or
    [disconnect()] moves the counter or adds a reconnect timer. *)
Lemma exhausted_step w e w' :
  (reconnectAttempts (this w) >= maxReconnectAttempts (config (this w)))%Z →
  step E w e = Some w' →
  resets_counter e = false →
  reconnectAttempts (this w') = reconnectAttempts (this w) ∧
  timeouts w' ⊆ timeouts w.
Proof.
  intros Hge Hstep Hr. destruct e; simpl in Hstep, Hr; try done.
  - injection Hstep as <-. destruct (connect_exhausted authToken0 w Hge).
    by split.
  - injection Hstep as <-.
    by destruct (settle_send_frame type data w) as [-> ->].
  - by injection Hstep as <-.
  - injection Hstep as <-. unfold unsubscribe.
    destruct (eventHandlers (this w) !! eventType); [|done].
    by case_decide.
  - by injection Hstep as <-.
  - by injection Hstep as <-.
  - assert (w' = deliver id (onclose E code)
                   (set_readyState id WebSocket.CLOSED w)) as ->
      by (destruct (socket_state id w) as [[]|]; congruence).
    destruct (deliver_cases id (onclose E code)
                (set_readyState id WebSocket.CLOSED w))
      as [->|(s & _ & _ & ->)]; [by autorewrite with world|].
    destruct (onclose_exhausted code (set_readyState id WebSocket.CLOSED w))
      as (-> & -> & _); by autorewrite with world.
  - destruct (socket_state id w); [|done]. injection Hstep as <-.
    destruct (deliver_cases id (onerror E) w) as [->|(s & _ & _ & ->)];
      by autorewrite with world.
  - destruct (socket_state id w) as [[]|]; try done.
    injection Hstep as <-.
    destruct (deliver_cases id (onmessage E parsed) w)
      as [->|(s & _ & _ & ->)]; [done|].
    by destruct (onmessage_frame E parsed w) as (-> & _ & ->).
  - destruct (pending t (timeouts w)); [|done]. injection Hstep as <-.
    destruct (connect_exhausted None (set_timeouts (cancel t (timeouts w)) w))
      as [Hsub ->]; [done|]. split; [done|].
    etrans; [exact Hsub|apply cancel_subseteq].
  - destruct (pending t (intervals w)); [|done]. injection Hstep as <-.
    by destruct (settle_heartbeat_frame w) as [-> ->].
  - case_decide; [|done]. by injection Hstep as <-.
Qed.

Lemma exhausted_run es :
  ∀ w w',
    (reconnectAttempts (this w) >= maxReconnectAttempts (config (this w)))%Z →
    run E w es = Some w' →
    Forall (λ e, resets_counter e = false) es →
    reconnectAttempts (this w') = reconnectAttempts (this w) ∧
    timeouts w' ⊆ timeouts w.
Proof.
  induction es as [|e es IH]; intros w w' Hge Hrun Hall; simpl in Hrun.
  - by injection Hrun as <-.
  - destruct (step E w e) as [w1|] eqn:Hstep; [|done].
    apply Forall_cons in Hall as [He Hall].
    destruct (exhausted_step w e w1 Hge Hstep He) as [Ha Hsub].
    destruct (step_maxReconnectAttempts E w e w1 Hstep) as (Hm & _).
    destruct (IH w1 w') as [Ha' Hsub']; [lia|done|done|].
    split; [lia|by etrans].
Qed.

Lemma bounded_step w e w' :
  step E w e = Some w' →
  (0 <= reconnectAttempts (this w) <= maxReconnectAttempts (config (this w)))%Z →
  (0 <= reconnectAttempts (this w') <= maxReconnectAttempts (config (this w')))%Z.
Proof.
  intros Hstep Hb.
  destruct (step_maxReconnectAttempts E w e w' Hstep) as (-> & _).
  destruct (step_counter E w w' e Hstep)
    as [->|[(-> & _)|[(-> & _)|(-> & _ & Hlt)]]]; lia.
Qed.

Lemma bounded_reachable w0 w :
  reachable_from E w0 w →
  (0 <= reconnectAttempts (this w0) <= maxReconnectAttempts (config (this w0)))%Z →
  (0 <= reconnectAttempts (this w) <= maxReconnectAttempts (config (this w)))%Z ∧
  maxReconnectAttempts (config (this w)) = maxReconnectAttempts (config (this w0)).
Proof.
  intros Hr Hb. induction Hr as [|w e w' Hr [IH1 IH2] Hstep]; [done|].
  split; [by eapply bounded_step|].
  destruct (step_maxReconnectAttempts E w e w' Hstep) as (-> & _). done.
Qed.

(** *** Every scheduled reconnect is paid for by one increment *)

Lemma timers_created_same w w' :
  next_timer w' = next_timer w → timers_created w w' = 0%Z.
Proof. unfold timers_created. intros ->. lia. Qed.

Lemma schedule_step_none w w' :
  next_timer w' = next_timer w →
  reconnectAttempts (this w') = reconnectAttempts (this w) →
  timeouts w' ⊆ timeouts w → schedule_step w w'.
Proof. intros Hn Ha Hs. left. by rewrite timers_created_same. Qed.

(** The steps that precede the policy inside [connect] and [onclose] keep
    the counter and the next timer identifier and add no timeout. *)
Lemma schedule_step_pre w0 w w' :
  next_timer w = next_timer w0 →
  reconnectAttempts (this w) = reconnectAttempts (this w0) →
  maxReconnectAttempts (config (this w)) = maxReconnectAttempts (config (this w0)) →
  timeouts w ⊆ timeouts w0 →
  schedule_step w w' → schedule_step w0 w'.
Proof.
  unfold schedule_step, timers_created. intros Hn Ha Hm Hs.
  rewrite Hn, Ha, Hm. intros [(? & ? & ?)|(? & ? & ? & kept & ? & ?)].
  - left. repeat split; [done|done|by etrans].
  - right. repeat split; [done..|]. exists kept. split; [by etrans|done].
Qed.

Lemma scheduleReconnect_schedule w : schedule_step w (scheduleReconnect E w).
Proof.
  destruct (decide (reconnectAttempts (this w) >=
                    maxReconnectAttempts (config (this w)))%Z) as [Hge|Hlt].
  - destruct (scheduleReconnect_timeouts_exhausted E w Hge) as (Hto & Ha & _).
    apply schedule_step_none; [|done|by rewrite Hto].
    rewrite scheduleReconnect_exhausted by done. by autorewrite with world.
  - assert (next_timer (scheduleReconnect E w) = S (next_timer w)) as Hnt.
    { unfold scheduleReconnect. rewrite decide_False by lia.
      unfold setTimeout. simpl. by autorewrite with world. }
    right. unfold timers_created. rewrite Hnt.
    rewrite scheduleReconnect_retry_this, scheduleReconnect_retry_timeouts by lia.
    simpl. split; [lia|]. split; [done|]. split; [lia|].
    by exists (timeouts w).
Qed.

Lemma connect_schedule tok w : schedule_step w (connect E tok w).
Proof.
  destruct (connect_prefix_frame E tok w) as (_ & Ha & Hm & _ & Hsub).
  destruct (store_authToken_frame tok w) as (_ & _ & _ & Hnt & _).
  destruct (connect_cases E w tok) as [[_ ->]|[(_ & u & _ & _ & ->)|[_ ->]]].
  - by apply schedule_step_none.
  - apply schedule_step_none; simpl; [|done|done].
    by autorewrite with world.
  - match goal with |- schedule_step _ (scheduleReconnect E ?w2) =>
      apply (schedule_step_pre w w2); [| | | |apply scheduleReconnect_schedule]
    end.
    + autorewrite with world. simpl. by autorewrite with world.
    + autorewrite with world. simpl. exact Ha.
    + autorewrite with world. simpl. exact Hm.
    + autorewrite with world. simpl. exact Hsub.
Qed.

Lemma onclose_schedule code w : schedule_step w (onclose E code w).
Proof.
  destruct (decide (code = 1000%Z)) as [->|Hc].
  - apply schedule_step_none.
    + unfold onclose. rewrite decide_False by (intros H; by apply H).
      by autorewrite with world.
    + by rewrite onclose_normal_this.
    + unfold onclose. rewrite decide_False by (intros H; by apply H).
      by autorewrite with world.
  - rewrite onclose_abnormal by done.
    match goal with |- schedule_step _ (scheduleReconnect E ?w2) =>
      apply (schedule_step_pre w w2); [| | | |apply scheduleReconnect_schedule]
    end; by autorewrite with world.
Qed.

Lemma set_readyState_next_timer id r w :
  next_timer (set_readyState id r w) = next_timer w.
Proof. unfold set_readyState. by destruct (sockets w !! id). Qed.

Lemma settle_send_next_timer type data w :
  next_timer (settle w (send type data w)) = next_timer w.
Proof.
  destruct (ws_is_open w) eqn:Hopen.
  - destruct (send_open type data w Hopen) as (id & s & _ & _ & Hsend).
    simpl. unfold send in *. by rewrite Hsend.
  - simpl. unfold send. by rewrite Hopen.
Qed.

Lemma settle_heartbeat_next_timer w :
  next_timer (settle w (heartbeat w)) = next_timer w.
Proof.
  unfold heartbeat. destruct (ws_is_open w); [|done].
  apply (settle_send_next_timer "ping" None w).
Qed.

Lemma onmessage_next_timer parsed w :
  next_timer (onmessage E parsed w) = next_timer w.
Proof.
  unfold onmessage. destruct parsed as [[ty d]|]; [|done].
  unfold handleMessage. case_decide; [done|].
  destruct (eventHandlers (this w) !! ty) as [hs|]; [|done].
  by destruct (foldl_dispatch E ty d hs w) as (_ & _ & _ & _ & -> & _).
Qed.

(** Every step other than the two resets obeys [schedule_step]. *)
Lemma step_schedule w e w' :
  step E w e = Some w' → resets_counter e = false → schedule_step w w'.
Proof.
  intros Hstep Hr. destruct e; simpl in Hstep, Hr; try done.
  - injection Hstep as <-. apply connect_schedule.
  - injection Hstep as <-.
    destruct (settle_send_frame type data w) as [Ht Hto].
    apply schedule_step_none;
      [apply settle_send_next_timer|by rewrite Ht|by rewrite Hto].
  - injection Hstep as <-. by apply schedule_step_none.
  - injection Hstep as <-. unfold unsubscribe.
    destruct (eventHandlers (this w) !! eventType); [|by apply schedule_step_none].
    case_decide; by apply schedule_step_none.
  - injection Hstep as <-. by apply schedule_step_none.
  - injection Hstep as <-. by apply schedule_step_none.
  - assert (w' = deliver id (onclose E code)
                   (set_readyState id WebSocket.CLOSED w)) as ->
      by (destruct (socket_state id w) as [[]|]; congruence).
    destruct (deliver_cases id (onclose E code)
                (set_readyState id WebSocket.CLOSED w))
      as [->|(s & _ & _ & ->)].
    + apply schedule_step_none;
        [apply set_readyState_next_timer|by autorewrite with world..].
    + apply (schedule_step_pre w (set_readyState id WebSocket.CLOSED w));
        [apply set_readyState_next_timer|by autorewrite with world..
        |apply onclose_schedule].
  - destruct (socket_state id w); [|done]. injection Hstep as <-.
    destruct (deliver_cases id (onerror E) w) as [->|(s & _ & _ & ->)];
      apply schedule_step_none; try done;
      unfold onerror; by autorewrite with world.
  - destruct (socket_state id w) as [[]|]; try done.
    injection Hstep as <-.
    destruct (deliver_cases id (onmessage E parsed) w)
      as [->|(s & _ & _ & ->)]; [by apply schedule_step_none|].
    destruct (onmessage_frame E parsed w) as (Ht & _ & Hto).
    apply schedule_step_none;
      [apply onmessage_next_timer|by rewrite Ht|by rewrite Hto].
  - destruct (pending t (timeouts w)); [|done]. injection Hstep as <-.
    apply (schedule_step_pre w (set_timeouts (cancel t (timeouts w)) w));
      [done|done|done|apply cancel_subseteq|apply connect_schedule].
  - destruct (pending t (intervals w)); [|done]. injection Hstep as <-.
    destruct (settle_heartbeat_frame w) as [Ht Hto].
    apply schedule_step_none;
      [apply settle_heartbeat_next_timer|by rewrite Ht|by rewrite Hto].
  - case_decide; [|done]. injection Hstep as <-. by apply schedule_step_none.
Qed.

(** Along a run free of resets the timers created are counted by the
    counter. *)
Lemma run_schedule es :
  ∀ w w',
    run E w es = Some w' →
    Forall (λ e, resets_counter e = false) es →
    timers_created w w' =
    (reconnectAttempts (this w') - reconnectAttempts (this w))%Z.
Proof.
  induction es as [|e es IH]; intros w w' Hrun Hall; simpl in Hrun.
  - injection Hrun as <-. unfold timers_created. lia.
  - destruct (step E w e) as [w1|] eqn:Hstep; [|done].
    apply Forall_cons in Hall as [He Hall].
    specialize (IH w1 w' Hrun Hall).
    assert (timers_created w w1 =
            (reconnectAttempts (this w1) - reconnectAttempts (this w))%Z) as H1.
    { destruct (step_schedule w e w1 Hstep He)
        as [(-> & -> & _)|(-> & -> & _)]; lia. }
    unfold timers_created in *. lia.
Qed.

(** C4, as amended.  The default maximum is 5, and in every reachable state
    the attempt counter lies between 0 and the maximum.  When the policy is
    evaluated with the counter already at the maximum (the failure that
    follows the last permitted attempt) the manager enters Error and sets no
    timer; an abnormal close does exactly that.  From such a state on, no
    sequence of steps free of socket-open events and [disconnect()] calls
    (the two resets of the counter) changes the counter or schedules a
    reconnect.  Every step other than those two resets either creates no
    timer, leaves the counter alone and adds no pending timeout, or creates
    exactly one timer, the reconnect timer with delay
    [reconnectInterval * reconnectAttempts], and raises the counter, which
    was below the maximum, by exactly one.  Hence along any run free of
    resets, from a reachable state, the number of timers created equals the
    rise of the counter and is at most the maximum less the counter at the
    start: no more than [maxReconnectAttempts] reconnects are scheduled
    between two resets. *)
Theorem reconnect_attempts_bounded :
  maxReconnectAttempts (DEFAULT_CONFIG E) = 5%Z ∧
  (∀ w, reachable_from E (init E) w →
     (0 <= reconnectAttempts (this w) <= 5)%Z ∧
     maxReconnectAttempts (config (this w)) = 5%Z) ∧
  (∀ w,
     (reconnectAttempts (this w) >= maxReconnectAttempts (config (this w)))%Z →
     connectionState (this (scheduleReconnect E w)) = ConnectionState.ERROR ∧
     timeouts (scheduleReconnect E w) = timeouts w ∧
     reconnectAttempts (this (scheduleReconnect E w)) = reconnectAttempts (this w) ∧
     ∀ code, code ≠ 1000%Z →
       connectionState (this (onclose E code w)) = ConnectionState.ERROR ∧
       timeouts (onclose E code w) = timeouts w) ∧
  (∀ w es w',
     (reconnectAttempts (this w) >= maxReconnectAttempts (config (this w)))%Z →
     run E w es = Some w' →
     Forall (λ e, resets_counter e = false) es →
     reconnectAttempts (this w') = reconnectAttempts (this w) ∧
     timeouts w' ⊆ timeouts w) ∧
  (∀ w e w',
     step E w e = Some w' → resets_counter e = false →
     (timers_created w w' = 0%Z ∧
      reconnectAttempts (this w') = reconnectAttempts (this w) ∧
      timeouts w' ⊆ timeouts w) ∨
     (timers_created w w' = 1%Z ∧
      reconnectAttempts (this w') = (reconnectAttempts (this w) + 1)%Z ∧
      (reconnectAttempts (this w) < maxReconnectAttempts (config (this w)))%Z ∧
      ∃ kept, kept ⊆ timeouts w ∧
        timeouts w' =
        kept ++ [(next_timer w,
                  (reconnectInterval (config (this w')) *
                   reconnectAttempts (this w'))%Z)])) ∧
  (∀ w es w',
     reachable_from E (init E) w →
     run E w es = Some w' →
     Forall (λ e, resets_counter e = false) es →
     timers_created w w' =
       (reconnectAttempts (this w') - reconnectAttempts (this w))%Z ∧
     (timers_created w w' <=
        maxReconnectAttempts (config (this w)) - reconnectAttempts (this w))%Z ∧
     (timers_created w w' <= maxReconnectAttempts (DEFAULT_CONFIG E))%Z).
Proof.
  assert (Hinv : ∀ w, reachable_from E (init E) w →
            (0 <= reconnectAttempts (this w) <= 5)%Z ∧
            maxReconnectAttempts (config (this w)) = 5%Z).
  { intros w Hr.
    destruct (bounded_reachable (init E) w Hr) as [Hb Hm]; [simpl; lia|].
    simpl in Hm. rewrite Hm in Hb. done. }
  split; [done|]. split; [exact Hinv|]. split; [|split; [|split]].
  - intros w Hge.
    destruct (scheduleReconnect_timeouts_exhausted E w Hge) as (-> & -> & ->).
    repeat split; try done; by destruct (onclose_exhausted code w Hge) as (? & ? & ?);
      auto.
  - intros w es w'. apply exhausted_run.
  - intros w e w' Hstep Hr. exact (step_schedule w e w' Hstep Hr).
  - intros w es w' Hreach Hrun Hall.
    rewrite (run_schedule es w w' Hrun Hall).
    destruct (Hinv w Hreach) as [Hb Hm].
    destruct (Hinv w' (run_reachable E _ es w w' Hreach Hrun)) as [Hb' _].
    rewrite Hm. simpl. lia.
Qed.

End Exhaustion.

Lemma reconnect_attempts_bounded_witness :
  connectionState (this (after sixAbnormalCloses)) = ConnectionState.ERROR ∧
  (0 <= reconnectAttempts (this (after sixAbnormalCloses)) <= 5)%Z ∧
  (reconnectAttempts
     (this (after (sixAbnormalCloses ++ [CallConnect None; SocketClose 6 1006]))) =
     reconnectAttempts (this (after sixAbnormalCloses)) ∧
   timeouts (after (sixAbnormalCloses ++ [CallConnect None; SocketClose 6 1006])) ⊆
     timeouts (after sixAbnormalCloses)) ∧
  run plainEnv (after [CallConnect (Some "tok"); SocketOpen 0])
    (drop 2 sixAbnormalCloses) = Some (after sixAbnormalCloses) ∧
  timers_created (after [CallConnect (Some "tok"); SocketOpen 0])
    (after sixAbnormalCloses) = 5%Z ∧
  (timers_created (after [CallConnect (Some "tok"); SocketOpen 0])
     (after sixAbnormalCloses) <= 5)%Z.
Proof.
  destruct (reconnect_attempts_bounded plainEnv) as (_ & Hinv & _ & Hrun & _ & Hcount).
  split; [vm_compute; reflexivity|]. split; [|split].
  - apply Hinv.
    apply (run_reachable plainEnv _ sixAbnormalCloses (init plainEnv));
      [apply reach_refl|vm_compute; reflexivity].
  - apply (Hrun (after sixAbnormalCloses)
             [CallConnect None; SocketClose 6 1006]).
    + vm_compute. discriminate.
    + vm_compute. reflexivity.
    + repeat constructor.
  - split; [vm_compute; reflexivity|].
    destruct (Hcount (after [CallConnect (Some "tok"); SocketOpen 0])
                (drop 2 sixAbnormalCloses) (after sixAbnormalCloses))
      as (Heq & _ & Hle).
    + apply (run_reachable plainEnv _ [CallConnect (Some "tok"); SocketOpen 0]
               (init plainEnv)); [apply reach_refl|vm_compute; reflexivity].
    + vm_compute. reflexivity.
    + vm_compute. repeat constructor.
    + split; [rewrite Heq; vm_compute; reflexivity|exact Hle].
Defined.

(** C4, as stated, fails: after five consecutive abnormal closes under the
    default maximum of 5 the counter has reached the maximum, yet the manager
    is in Reconnecting with the fifth attempt scheduled, not in Error. *)
Lemma five_closes_leave_reconnecting :
  run plainEnv (init plainEnv) fiveAbnormalCloses = Some (after fiveAbnormalCloses) ∧
  reconnectAttempts (this (after fiveAbnormalCloses)) = 5%Z ∧
  maxReconnectAttempts (config (this (after fiveAbnormalCloses))) = 5%Z ∧
  connectionState (this (after fiveAbnormalCloses)) = ConnectionState.RECONNECTING ∧
  timeouts (after fiveAbnormalCloses) = [(6, 15000%Z)] ∧
  ¬ spec_exhaustion plainEnv.
Proof.
  do 5 (split; [vm_compute; reflexivity|]).
  intros H.
  specialize (H (after fiveAbnormalCloses)).
  assert (connectionState (this (after fiveAbnormalCloses)) = ConnectionState.ERROR)
    as Hs.
  { apply H.
    - apply (run_reachable plainEnv _ fiveAbnormalCloses (init plainEnv));
        [apply reach_refl|vm_compute; reflexivity].
    - vm_compute. reflexivity. }
  vm_compute in Hs. discriminate.
Qed.

(** ** The stored auth token *)

Section Token.
Variable E : Env.

Lemma truthy_true s : s ≠ "" → truthy s = true.
Proof. intros H. by apply bool_decide_eq_true_2. Qed.

Lemma wsUrl_token c enc :
  authToken c ≠ "" → encodeURIComponent E (authToken c) = Some enc →
  wsUrl E c = Some (url c +:+ "?token=" +:+ enc).
Proof.
  intros Hne Henc. unfold wsUrl. rewrite truthy_true by done.
  by rewrite Henc.
Qed.

(** A [connect()] without argument on a socket that is not open, with a
    stored token the constructor accepts. *)
Lemma connect_reuses_token w enc :
  ws_is_open w = false →
  authToken (config (this w)) ≠ "" →
  encodeURIComponent E (authToken (config (this w))) = Some enc →
  valid_url E (url (config (this w)) +:+ "?token=" +:+ enc) = true →
  sockets (connect E None w) =
    sockets w ++
      [mkSocket (url (config (this w)) +:+ "?token=" +:+ enc)
         WebSocket.CONNECTING true [] None] ∧
  ws (this (connect E None w)) = Some (length (sockets w)) ∧
  config (this (connect E None w)) = config (this w).
Proof.
  intros Hopen Hne Henc Hv.
  rewrite (connect_opens E w None _ Hopen (wsUrl_token _ enc Hne Henc) Hv).
  simpl. by autorewrite with world.
Qed.

(** C10, as amended.  [connect(token)] with a non-empty token, made while the
    current socket is not open, stores the token in the configuration, and
    that is the only write to the configuration there is: every step of the
    manager leaves the configuration as it was, except a [connect(token)]
    with a non-empty token on a socket that is not open, which replaces
    [authToken] and nothing else.  In particular [connect()] without a
    token, [connect("")], and [connect(token)] on an open socket leave the
    configuration unchanged, and so does [disconnect()].  Hence a reconnect
    made by the timer, and a later [connect()] without argument, open the
    socket on [url?token=encodeURIComponent(stored token)]. *)
Theorem authToken_sticky (w : World) (tok : string) :
  (ws_is_open w = false → tok ≠ "" →
     authToken (config (this (connect E (Some tok) w))) = tok) ∧
  (∀ e w', step E w e = Some w' →
     config (this w') = config (this w) ∨
     (∃ t, e = CallConnect (Some t) ∧ t ≠ "" ∧ ws_is_open w = false ∧
           config (this w') = config (set_authToken t (this w)))) ∧
  config (this (disconnect E w)) = config (this w) ∧
  (∀ e enc w',
     e = CallConnect None ∨ (∃ t, e = ReconnectTimerFires t) →
     step E w e = Some w' →
     ws_is_open w = false →
     authToken (config (this w)) = tok → tok ≠ "" →
     encodeURIComponent E tok = Some enc →
     valid_url E (url (config (this w)) +:+ "?token=" +:+ enc) = true →
     sockets w' =
       sockets w ++
         [mkSocket (url (config (this w)) +:+ "?token=" +:+ enc)
            WebSocket.CONNECTING true [] None] ∧
     ws (this w') = Some (length (sockets w)) ∧
     authToken (config (this w')) = tok) ∧
  config (this (connect E None w)) = config (this w) ∧
  config (this (connect E (Some "") w)) = config (this w) ∧
  (ws_is_open w = true →
     config (this (connect E (Some tok) w)) = config (this w)).
Proof.
  split; [|split; [|split; [|split; [|split; [|split]]]]].
  - intros Hopen Hne. rewrite connect_config, Hopen.
    rewrite store_authToken_config. simpl. by rewrite truthy_true.
  - intros e w' Hstep.
    destruct (step_config E w e w' Hstep) as [H|(t & -> & Ht & Hopen & H)];
      [by left|].
    right. exists t. apply bool_decide_eq_true in Ht. done.
  - by rewrite disconnect_this.
  - intros e enc w' He Hstep Hopen Htok Hne Henc Hv. subst tok.
    destruct He as [->|[t ->]]; simpl in Hstep.
    + injection Hstep as <-.
      destruct (connect_reuses_token w enc) as (-> & -> & ->); done.
    + destruct (pending t (timeouts w)); [|done]. injection Hstep as <-.
      destruct (connect_reuses_token
                  (set_timeouts (cancel t (timeouts w)) w) enc)
        as (-> & -> & ->); done.
  - rewrite connect_config, store_authToken_config. simpl.
    by destruct (ws_is_open w).
  - rewrite connect_config, store_authToken_config. simpl.
    by destruct (ws_is_open w).
  - intros Hopen. by rewrite connect_config, Hopen.
Qed.

End Token.

Lemma authToken_sticky_witness :
  authToken (config (this (connect plainEnv (Some "tok") (init plainEnv)))) = "tok" ∧
  config (this (after (oneAbnormalClose ++ [CallDisconnect]))) =
    config (this (after oneAbnormalClose)) ∧
  sock_url <$> sockets (after (oneAbnormalClose ++ [ReconnectTimerFires 2])) =
    ["ws://localhost:8000/ws?token=tok"; "ws://localhost:8000/ws?token=tok"] ∧
  config (this (connect plainEnv (Some "new")
                  (after [CallConnect (Some "old"); SocketOpen 0]))) =
    config (this (after [CallConnect (Some "old"); SocketOpen 0])).
Proof.
  destruct (authToken_sticky plainEnv (init plainEnv) "tok") as (H1 & _).
  destruct (authToken_sticky plainEnv (after oneAbnormalClose) "tok")
    as (_ & H2 & _ & H4 & _).
  destruct (authToken_sticky plainEnv
              (after [CallConnect (Some "old"); SocketOpen 0]) "new")
    as (_ & _ & _ & _ & _ & _ & H7).
  split; [apply H1; [vm_compute; reflexivity|discriminate]|].
  split; [|split].
  - destruct (H2 CallDisconnect (after (oneAbnormalClose ++ [CallDisconnect])))
      as [H|(t & Heq & _)]; [vm_compute; reflexivity|exact H|discriminate Heq].
  - destruct (H4 (ReconnectTimerFires 2) "tok"
                (after (oneAbnormalClose ++ [ReconnectTimerFires 2])))
      as (-> & _);
      [right; by exists 2|vm_compute; reflexivity|vm_compute; reflexivity|
       vm_compute; reflexivity|discriminate|reflexivity|reflexivity|].
    vm_compute. reflexivity.
  - apply H7. vm_compute. reflexivity.
Defined.

(** C10, as stated, fails: [connect("new")] on an open socket returns before
    it stores the token, so the reconnect that follows the next abnormal close
    still carries the token given first. *)
Lemma connect_on_open_socket_drops_token :
  run plainEnv (init plainEnv) tokenRefresh = Some (after tokenRefresh) ∧
  authToken (config (this (after [CallConnect (Some "old"); SocketOpen 0;
                                  CallConnect (Some "new")]))) = "old" ∧
  sock_url <$> sockets (after tokenRefresh) =
    ["ws://localhost:8000/ws?token=old"; "ws://localhost:8000/ws?token=old"] ∧
  ¬ spec_token_stored plainEnv.
Proof.
  do 3 (split; [vm_compute; reflexivity|]).
  intros H.
  specialize (H (after [CallConnect (Some "old"); SocketOpen 0]) "new").
  assert (authToken
            (config (this (connect plainEnv (Some "new")
                             (after [CallConnect (Some "old"); SocketOpen 0])))) =
          "new") as Hs.
  { apply H; [|discriminate].
    apply (run_reachable plainEnv _ [CallConnect (Some "old"); SocketOpen 0]
             (init plainEnv)); [apply reach_refl|vm_compute; reflexivity]. }
  vm_compute in Hs. discriminate.
Qed.

(** ** The singleton *)

(** C9.  Whatever the module state, once [getInstance] has been called every
    later call returns the same instance and changes nothing, whatever
    configuration it is given.  Loading the module makes that first call
    without argument, so the singleton carries [DEFAULT_CONFIG], and
    [useWebSocket(config)] returns it unchanged for every [config]. *)
Theorem getInstance_singleton (E : Env) (cfg cfg' : option PartialConfig)
    (ms : Singleton.ModuleState) :
  Singleton.getInstance E cfg' (Singleton.getInstance E cfg ms).2 =
    ((Singleton.getInstance E cfg ms).1, (Singleton.getInstance E cfg ms).2) ∧
  Singleton.instance (Singleton.loaded E) = Some 0 ∧
  Singleton.heap (Singleton.loaded E) = [this (init E)] ∧
  config (this (init E)) = DEFAULT_CONFIG E ∧
  Singleton.useWebSocket E cfg (Singleton.loaded E) = (0, Singleton.loaded E) ∧
  (∀ cfgs,
     foldl (λ st c, (Singleton.useWebSocket E c st).2) (Singleton.loaded E) cfgs =
     Singleton.loaded E).
Proof.
  split; [|repeat split].
  - unfold Singleton.getInstance.
    destruct (Singleton.instance ms) as [r|] eqn:Hi; simpl; by rewrite ?Hi.
  - intros cfgs. induction cfgs as [|c cfgs IH]; [done|]. simpl. exact IH.
Qed.

(** ** The status aggregator *)

Section Aggregator.

Lemma replace_absent (task : Provider.Task) (l : list Provider.Task) :
  (∀ t, t ∈ l → Provider.id t ≠ Provider.id task) →
  map (λ t, if decide (Provider.id t = Provider.id task) then task else t) l = l.
Proof.
  induction l as [|a l IH]; intros H; simpl; [done|].
  rewrite decide_False by (apply H; left).
  f_equal. apply IH. intros t Ht. apply H. by right.
Qed.

Lemma replace_present (task : Provider.Task) (l : list Provider.Task) :
  ∀ i old,
    NoDup (Provider.id <$> l) →
    l !! i = Some old → Provider.id old = Provider.id task →
    map (λ t, if decide (Provider.id t = Provider.id task) then task else t) l =
    <[i := task]> l.
Proof.
  induction l as [|a l IH]; intros i old Hnd Hi Hid; [done|].
  rewrite fmap_cons in Hnd. apply NoDup_cons in Hnd as [Hnotin Hnd].
  destruct i as [|i]; simpl in *.
  - injection Hi as ->. rewrite decide_True by done. f_equal.
    apply replace_absent. intros t Ht Heq. apply Hnotin.
    rewrite Hid, <- Heq. by apply list_elem_of_fmap_2.
  - rewrite decide_False.
    + f_equal. by eapply IH.
    + intros Heq. apply Hnotin. rewrite Heq, <- Hid.
      apply list_elem_of_fmap_2. by eapply list_elem_of_lookup_2.
Qed.

Lemma find_absent (task : Provider.Task) (l : list Provider.Task) :
  (∀ t, t ∈ l → Provider.id t ≠ Provider.id task) →
  find (λ t, bool_decide (Provider.id t = Provider.id task)) l = None.
Proof.
  induction l as [|a l IH]; intros H; simpl; [done|].
  rewrite bool_decide_eq_false_2 by (apply H; left).
  apply IH. intros t Ht. apply H. by right.
Qed.

Lemma find_present (task : Provider.Task) (l : list Provider.Task) t :
  t ∈ l → Provider.id t = Provider.id task →
  is_Some (find (λ t, bool_decide (Provider.id t = Provider.id task)) l).
Proof.
  induction l as [|a l IH]; intros Hin Hid; [by apply elem_of_nil in Hin|].
  simpl. destruct (bool_decide _) eqn:Hb; [eauto|].
  apply elem_of_cons in Hin as [->|Hin]; [|by apply IH].
  apply bool_decide_eq_false in Hb. done.
Qed.

Lemma one_with_id (task : Provider.Task) (l : list Provider.Task) :
  ∀ i t,
    NoDup (Provider.id <$> l) →
    l !! i = Some t → Provider.id t = Provider.id task →
    length (filter (λ t, Provider.id t = Provider.id task) l) = 1.
Proof.
  induction l as [|a l IH]; intros i t Hnd Hi Hid; [done|].
  rewrite fmap_cons in Hnd. apply NoDup_cons in Hnd as [Hnotin Hnd].
  destruct i as [|i]; simpl in *.
  - injection Hi as ->. rewrite filter_cons_True by done. simpl. f_equal.
    apply length_zero_iff_nil, elem_of_nil_inv. intros x Hx.
    apply list_elem_of_filter in Hx as [Hxid Hx]. apply Hnotin.
    rewrite Hid, <- Hxid. by apply list_elem_of_fmap_2.
  - rewrite filter_cons_False; [by eapply IH|].
    intros Heq. apply Hnotin. rewrite Heq, <- Hid.
    apply list_elem_of_fmap_2. by eapply list_elem_of_lookup_2.
Qed.

(** C7.  On a snapshot whose task ids are pairwise distinct, a [task-update]
    yields a status with the same [activeAgents], [queueLength] and
    [estimatedCompletion].  If a task with the update's id stands at position
    [i], the new list is the old one with position [i] overwritten: same
    length, the update at [i], and exactly one task with that id.  If no task
    has the id, the new list is the old one with the update appended. *)
Theorem mergeTask_law (prev : Provider.ProcessingStatus) (task : Provider.Task) :
  NoDup (Provider.id <$> Provider.currentTasks prev) →
  ∃ next,
    Provider.mergeTask task (Some prev) = Some next ∧
    Provider.activeAgents next = Provider.activeAgents prev ∧
    Provider.queueLength next = Provider.queueLength prev ∧
    Provider.estimatedCompletion next = Provider.estimatedCompletion prev ∧
    (∀ i old,
       Provider.currentTasks prev !! i = Some old →
       Provider.id old = Provider.id task →
       Provider.currentTasks next = <[i := task]> (Provider.currentTasks prev) ∧
       length (Provider.currentTasks next) = length (Provider.currentTasks prev) ∧
       Provider.currentTasks next !! i = Some task ∧
       length (filter (λ t, Provider.id t = Provider.id task)
                 (Provider.currentTasks next)) = 1) ∧
    ((∀ t, t ∈ Provider.currentTasks prev → Provider.id t ≠ Provider.id task) →
       Provider.currentTasks next = Provider.currentTasks prev ++ [task]).
Proof.
  intros Hnd. eexists. split; [reflexivity|]. simpl.
  do 3 (split; [done|]). split.
  - intros i old Hi Hid.
    assert (i < length (Provider.currentTasks prev)) as Hlt
      by (by eapply lookup_lt_Some).
    rewrite (replace_present task _ i old Hnd Hi Hid).
    destruct (find_present task (<[i := task]> (Provider.currentTasks prev)) task)
      as [x ->]; [|done|].
    { eapply list_elem_of_lookup_2. by apply list_lookup_insert_eq. }
    split; [done|]. split; [by rewrite length_insert|].
    split; [by apply list_lookup_insert_eq|].
    apply (one_with_id task _ i task); [|by apply list_lookup_insert_eq|done].
    rewrite list_fmap_insert, <- Hid, list_insert_id; [done|].
    by rewrite list_lookup_fmap, Hi.
  - intros Habs. rewrite replace_absent by done.
    by rewrite find_absent.
Qed.

Lemma feed_snoc st ms m :
  Provider.feed st (ms ++ [m]) = Provider.handle (Provider.feed st ms) m.
Proof. unfold Provider.feed. by rewrite foldl_app. Qed.

(** C8.  Fed with [task-update] events only, the provider's status stays
    [null]; in particular a first [task-update] leaves it [null].  Whenever
    the status is set after a sequence of events, one of them was a
    [processing-status] snapshot. *)
Theorem deltas_never_synthesize (ms : list Provider.Message) :
  (Forall (λ m, Provider.is_snapshot m = false) ms →
     Provider.processingStatus (Provider.feed Provider.initial ms) = None) ∧
  (is_Some (Provider.processingStatus (Provider.feed Provider.initial ms)) →
     Exists (λ m, Provider.is_snapshot m = true) ms) ∧
  (∀ task date,
     Provider.processingStatus
       (Provider.onTaskUpdate task date Provider.initial) = None).
Proof.
  split; [|split; [|done]].
  - induction ms as [|m ms IH] using rev_ind; intros Hall; [done|].
    apply Forall_app in Hall as [Hms Hm]. apply Forall_cons in Hm as [Hm _].
    rewrite feed_snoc. destruct m as [s d|t d]; simpl in Hm; [done|]. simpl.
    by rewrite IH.
  - induction ms as [|m ms IH] using rev_ind; intros Hsome.
    + by destruct Hsome.
    + apply Exists_app. rewrite feed_snoc in Hsome.
      destruct m as [s d|t d].
      * right. by apply Exists_cons_hd.
      * left. apply IH. simpl in Hsome.
        destruct (Provider.processingStatus (Provider.feed Provider.initial ms));
          [eauto|by destruct Hsome].
Qed.

End Aggregator.

Lemma mergeTask_law_witness :
  Provider.currentTasks <$> Provider.mergeTask taskA50 (Some snapshotS) =
    Some [taskA50] ∧
  Provider.currentTasks <$> Provider.mergeTask taskB (Some snapshotS) =
    Some [taskA10; taskB].
Proof.
  assert (NoDup (Provider.id <$> Provider.currentTasks snapshotS)) as Hnd
    by (apply NoDup_singleton).
  destruct (mergeTask_law snapshotS taskA50 Hnd)
    as (next & -> & _ & _ & _ & Hrep & _).
  destruct (mergeTask_law snapshotS taskB Hnd)
    as (next' & -> & _ & _ & _ & _ & Happ).
  split; simpl.
  - destruct (Hrep 0 taskA10) as (-> & _); reflexivity.
  - rewrite Happ; [reflexivity|].
    intros t Ht. apply list_elem_of_singleton in Ht as ->. discriminate.
Defined.

Lemma deltas_never_synthesize_witness :
  Provider.processingStatus
    (Provider.feed Provider.initial
       [Provider.Delta taskA50 1; Provider.Delta taskB 2]) = None ∧
  Exists (λ m, Provider.is_snapshot m = true)
    [Provider.Delta taskB 1; Provider.Snapshot snapshotS 2;
     Provider.Delta taskA50 3].
Proof.
  split.
  - apply deltas_never_synthesize. repeat constructor.
  - apply deltas_never_synthesize. vm_compute. eauto.
Defined.

(** ** What the subscriptions and the heartbeat timer are left with *)

Lemma log_this d w : this (log d w) = this w.
Proof. done. Qed.

Lemma log_intervals d w : intervals (log d w) = intervals w.
Proof. done. Qed.

Lemma log_calls d w : calls (log d w) = calls w.
Proof. done. Qed.

#[export] Hint Rewrite log_this log_intervals log_calls : world.

Section Subscribers.
Variable E : Env.

Lemma store_authToken_subscribers tok w :
  let w' := store_authToken tok w in
  eventHandlers (this w') = eventHandlers (this w) ∧
  connectionStateHandlers (this w') = connectionStateHandlers (this w) ∧
  heartbeatTimer (this w') = heartbeatTimer (this w) ∧
  intervals w' = intervals w.
Proof.
  unfold store_authToken. destruct tok as [tok|]; [|done].
  by destruct (truthy tok).
Qed.

Lemma scheduleReconnect_subscribers w :
  let w' := scheduleReconnect E w in
  eventHandlers (this w') = eventHandlers (this w) ∧
  connectionStateHandlers (this w') = connectionStateHandlers (this w) ∧
  heartbeatTimer (this w') = heartbeatTimer (this w) ∧
  intervals w' = intervals w ∧
  ws (this w') = ws (this w).
Proof.
  unfold scheduleReconnect. case_decide; unfold setTimeout; simpl;
    by autorewrite with world.
Qed.

(** [connect] leaves the subscriptions and the heartbeat alone. *)
Lemma connect_subscribers tok w :
  let w' := connect E tok w in
  eventHandlers (this w') = eventHandlers (this w) ∧
  connectionStateHandlers (this w') = connectionStateHandlers (this w) ∧
  heartbeatTimer (this w') = heartbeatTimer (this w) ∧
  intervals w' = intervals w.
Proof.
  destruct (store_authToken_subscribers tok w) as (He & Hc & Hh & Hi).
  cbv zeta.
  destruct (connect_cases E w tok) as [[_ ->]|[(_ & u & _ & _ & ->)|[_ ->]]].
  - done.
  - simpl. by autorewrite with world.
  - match goal with |- context [scheduleReconnect E ?w2] =>
      destruct (scheduleReconnect_subscribers w2) as (-> & -> & -> & -> & _)
    end.
    autorewrite with world. simpl. by autorewrite with world.
Qed.

Lemma onclose_subscribers code w :
  let w' := onclose E code w in
  eventHandlers (this w') = eventHandlers (this w) ∧
  connectionStateHandlers (this w') = connectionStateHandlers (this w).
Proof.
  cbv zeta. unfold onclose. case_decide.
  - match goal with |- context [scheduleReconnect E ?w2] =>
      destruct (scheduleReconnect_subscribers w2) as (-> & -> & _)
    end.
    by autorewrite with world.
  - by autorewrite with world.
Qed.

(** Only the four subscription calls change who is subscribed. *)
Lemma step_subscribers w e w' :
  step E w e = Some w' →
  match e with
  | CallOn ty h => w' = on ty h w
  | CallUnsubscribe ty h => w' = unsubscribe ty h w
  | CallOnConnectionStateChange h => w' = onConnectionStateChange h w
  | CallUnsubscribeState h => w' = unsubscribeState h w
  | _ =>
      eventHandlers (this w') = eventHandlers (this w) ∧
      connectionStateHandlers (this w') = connectionStateHandlers (this w)
  end.
Proof.
  intros Hstep. destruct e; simpl in Hstep.
  - injection Hstep as <-. by destruct (connect_subscribers authToken0 w) as (? & ? & _).
  - injection Hstep as <-. by rewrite disconnect_this.
  - injection Hstep as <-.
    by destruct (settle_send_frame type data w) as [-> _].
  - by injection Hstep as <-.
  - by injection Hstep as <-.
  - by injection Hstep as <-.
  - by injection Hstep as <-.
  - destruct (socket_state id w) as [[]|]; try done.
    injection Hstep as <-.
    destruct (deliver_cases id (onopen E) (set_readyState id WebSocket.OPEN w))
      as [->|(s & _ & _ & ->)]; by autorewrite with world.
  - assert (w' = deliver id (onclose E code)
                   (set_readyState id WebSocket.CLOSED w)) as ->
      by (destruct (socket_state id w) as [[]|]; congruence).
    destruct (deliver_cases id (onclose E code)
                (set_readyState id WebSocket.CLOSED w))
      as [->|(s & _ & _ & ->)]; [by autorewrite with world|].
    destruct (onclose_subscribers code (set_readyState id WebSocket.CLOSED w))
      as (-> & ->). by autorewrite with world.
  - destruct (socket_state id w); [|done]. injection Hstep as <-.
    destruct (deliver_cases id (onerror E) w) as [->|(s & _ & _ & ->)];
      by autorewrite with world.
  - destruct (socket_state id w) as [[]|]; try done.
    injection Hstep as <-.
    destruct (deliver_cases id (onmessage E parsed) w)
      as [->|(s & _ & _ & ->)]; [done|].
    by destruct (onmessage_frame E parsed w) as [-> _].
  - destruct (pending t (timeouts w)); [|done]. injection Hstep as <-.
    by destruct (connect_subscribers None (set_timeouts (cancel t (timeouts w)) w))
      as (? & ? & _).
  - destruct (pending t (intervals w)); [|done]. injection Hstep as <-.
    by destruct (settle_heartbeat_frame w) as [-> _].
  - case_decide; [|done]. by injection Hstep as <-.
Qed.

End Subscribers.

(** ** The event bus *)

Section EventBus.
Variable E : Env.

Lemma set_delete_absent h l : h ∉ l → set_delete h l = l.
Proof.
  induction l as [|a l IH]; intros Hn; [done|]. unfold set_delete in *.
  apply not_elem_of_cons in Hn as [Hne Hn].
  rewrite filter_cons_True by done. f_equal. by apply IH.
Qed.

Lemma set_delete_snoc h l : h ∉ l → set_delete h (l ++ [h]) = l.
Proof.
  intros Hn. unfold set_delete. rewrite filter_app.
  rewrite filter_cons_False by (intros H; by apply H). simpl.
  rewrite app_nil_r. by apply set_delete_absent.
Qed.

Lemma set_delete_gone h l : h ∉ set_delete h l.
Proof. unfold set_delete. intros [H _]%list_elem_of_filter. by apply H. Qed.

Lemma set_add_NoDup h l : NoDup l → NoDup (set_add h l).
Proof.
  intros Hnd. unfold set_add. case_decide; [done|].
  apply NoDup_app. repeat split; [done| |apply NoDup_singleton].
  intros x Hx ->%list_elem_of_singleton. done.
Qed.

Lemma set_add_nonempty h l : set_add h l ≠ [].
Proof.
  unfold set_add. case_decide as H.
  - intros ->. by apply elem_of_nil in H.
  - by destruct l.
Qed.

Lemma on_registry_ok ty h w : registry_ok w → registry_ok (on ty h w).
Proof.
  intros Hok ty' hs. unfold on. simpl.
  destruct (decide (ty = ty')) as [<-|Hne].
  - rewrite lookup_insert_eq. intros [= <-].
    split; [apply set_add_nonempty|]. apply set_add_NoDup.
    destruct (eventHandlers (this w) !! ty) as [hs0|] eqn:Hl; simpl;
      [by apply (Hok ty hs0)|apply NoDup_nil_2].
  - rewrite lookup_insert_ne by done. apply Hok.
Qed.

Lemma unsubscribe_registry_ok ty h w :
  registry_ok w → registry_ok (unsubscribe ty h w).
Proof.
  intros Hok ty' hs. unfold unsubscribe.
  destruct (eventHandlers (this w) !! ty) as [hs0|] eqn:Hl; [|apply Hok].
  case_decide as Hlen; simpl.
  - destruct (decide (ty = ty')) as [<-|Hne].
    + by rewrite lookup_delete_eq.
    + rewrite lookup_delete_ne by done. apply Hok.
  - destruct (decide (ty = ty')) as [<-|Hne].
    + rewrite lookup_insert_eq. intros [= <-]. split.
      * intros Hnil. by rewrite Hnil in Hlen.
      * apply NoDup_filter. by apply (Hok ty hs0).
    + rewrite lookup_insert_ne by done. apply Hok.
Qed.

(** X1.  In every reachable state the registry of the event bus maps an
    event type only to a non-empty set of handlers without repetition:
    [on] never stores a handler twice and the unsubscribe closure removes
    the entry of a type whose last handler leaves. *)
Theorem registry_well_formed (w : World) :
  reachable_from E (init E) w → registry_ok w.
Proof.
  induction 1 as [|w e w' _ IH Hstep].
  - intros ty hs. simpl. by rewrite lookup_empty.
  - pose proof (step_subscribers E w e w' Hstep) as Hsub.
    destruct e; simpl in Hsub;
      first [ subst w';
              first [ by apply on_registry_ok
                    | by apply unsubscribe_registry_ok
                    | exact IH ]
            | destruct Hsub as [He _]; intros ty hs; rewrite He; apply IH ].
Qed.

Lemma world_eventHandlers_eta w :
  upd_this (set_eventHandlers (eventHandlers (this w))) w = w.
Proof. by destruct w as [[] ? ? ? ? ? ? ?]. Qed.

(** X2.  Subscribing a handler that is not yet subscribed to the type and
    then calling the closure [on] returned restores the manager exactly,
    provided the registry is well formed (it is in every reachable
    state). *)
Theorem subscribe_unsubscribe (w : World) (ty : string) (h : nat) :
  registry_ok w →
  h ∉ default [] (eventHandlers (this w) !! ty) →
  unsubscribe ty h (on ty h w) = w.
Proof.
  intros Hok Hn. unfold unsubscribe, on. simpl.
  rewrite lookup_insert_eq. unfold set_add.
  destruct (decide (h ∈ default [] (eventHandlers (this w) !! ty))) as [?|_];
    [done|].
  rewrite set_delete_snoc by done.
  destruct (eventHandlers (this w) !! ty) as [hs0|] eqn:Hl; simpl in Hn |- *.
  - destruct (Hok ty hs0 Hl) as [Hne _].
    destruct (decide (length hs0 = 0)) as [Hlen|Hlen]; [by destruct hs0|].
    unfold upd_this, set_eventHandlers. simpl.
    rewrite insert_insert_eq, insert_id by done.
    by destruct w as [[] ? ? ? ? ? ? ?].
  - destruct (decide (length (@nil nat) = 0)) as [Hlen|Hlen]; [|done].
    unfold upd_this, set_eventHandlers. simpl.
    rewrite delete_insert_eq, delete_id by done.
    by destruct w as [[] ? ? ? ? ? ? ?].
Qed.

(** X3.  The handlers of a type form a set: subscribing the same handler a
    second time changes nothing, and after one call of the unsubscribe
    closure the handler is not subscribed to the type any more, however often
    it had been subscribed. *)
Theorem subscription_is_a_set (w : World) (ty : string) (h : nat) :
  on ty h (on ty h w) = on ty h w ∧
  (∀ hs, eventHandlers (this (unsubscribe ty h w)) !! ty = Some hs → h ∉ hs) ∧
  (∀ hs, eventHandlers (this (unsubscribe ty h (on ty h (on ty h w)))) !! ty = Some hs →
         h ∉ hs).
Proof.
  assert (∀ w0 hs, eventHandlers (this (unsubscribe ty h w0)) !! ty = Some hs →
                   h ∉ hs) as Hgone.
  { intros w0 hs. unfold unsubscribe.
    destruct (eventHandlers (this w0) !! ty) as [hs0|] eqn:Hl; [|by rewrite Hl].
    case_decide; simpl.
    - by rewrite lookup_delete_eq.
    - rewrite lookup_insert_eq. intros [= <-]. apply set_delete_gone. }
  split; [|split; apply Hgone].
  assert (∀ l, set_add h (set_add h l) = set_add h l) as Hidem.
  { intros l. unfold set_add at 1. rewrite decide_True; [done|].
    unfold set_add. case_decide; [done|]. apply elem_of_app. right.
    by apply list_elem_of_singleton. }
  unfold on. simpl. rewrite lookup_insert_eq. simpl.
  by rewrite insert_insert_eq, Hidem.
Qed.

End EventBus.

Lemma registry_well_formed_witness :
  registry_ok
    (after [CallOn "task-update" 1; CallOn "task-update" 1;
            CallOn "task-update" 2; CallUnsubscribe "task-update" 1]).
Proof.
  apply (registry_well_formed plainEnv).
  apply (run_reachable plainEnv _
           [CallOn "task-update" 1; CallOn "task-update" 1;
            CallOn "task-update" 2; CallUnsubscribe "task-update" 1]
           (init plainEnv)); [apply reach_refl|vm_compute; reflexivity].
Defined.

Lemma subscribe_unsubscribe_witness :
  unsubscribe "task-update" 2
    (on "task-update" 2 (on "task-update" 1 (init plainEnv))) =
  on "task-update" 1 (init plainEnv).
Proof.
  apply subscribe_unsubscribe.
  - apply on_registry_ok. intros ty hs. simpl. by rewrite lookup_empty.
  - vm_compute. intros H. apply list_elem_of_singleton in H. discriminate.
Defined.

(** ** Dispatch of inbound messages *)

Section Dispatch.
Variable E : Env.

Lemma foldl_dispatch_log ty d hs w :
  calls (foldl (dispatch E ty d) w hs) =
    calls w ++ ((λ h, CallEvent h d) <$> hs) ∧
  console (foldl (dispatch E ty d) w hs) =
    console w ++
      ((λ _, ErrHandler ty) <$> filter (λ h, handler_throws E h = true) hs) ∧
  intervals (foldl (dispatch E ty d) w hs) = intervals w.
Proof.
  revert w. induction hs as [|h hs IH]; intros w; simpl.
  - by rewrite !app_nil_r.
  - destruct (IH (dispatch E ty d w h)) as (-> & -> & ->).
    unfold dispatch. destruct (handler_throws E h) eqn:Hh; simpl.
    + rewrite filter_cons_True by done. simpl. by rewrite <- !app_assoc.
    + rewrite filter_cons_False by (by rewrite Hh). by rewrite <- !app_assoc.
Qed.

Lemma onmessage_intervals parsed w :
  intervals (onmessage E parsed w) = intervals w.
Proof.
  destruct parsed as [[ty d]|]; simpl; [|done].
  unfold handleMessage. case_decide; [done|].
  destruct (eventHandlers (this w) !! ty) as [hs|]; [|done].
  by destruct (foldl_dispatch_log ty d hs w) as (_ & _ & ->).
Qed.

(** X4.  An inbound message never changes the manager, the sockets or the
    timers.  A parsed message whose type is not [pong] invokes every handler
    subscribed to that type exactly once, in subscription order, with the
    message's data, whether or not an earlier handler throws, and each
    throwing handler adds one error to the console.  A [pong], or a type
    nobody subscribed to, invokes nobody and logs nothing; a message that
    cannot be parsed only logs the parse error. *)
Theorem message_dispatch (w : World) (parsed : option (string * Payload)) :
  this (onmessage E parsed w) = this w ∧
  sockets (onmessage E parsed w) = sockets w ∧
  timeouts (onmessage E parsed w) = timeouts w ∧
  intervals (onmessage E parsed w) = intervals w ∧
  match parsed with
  | None =>
      calls (onmessage E parsed w) = calls w ∧
      console (onmessage E parsed w) = console w ++ [ErrParse]
  | Some (ty, d) =>
      let hs := if decide (ty = "pong") then []
                else default [] (eventHandlers (this w) !! ty) in
      calls (onmessage E parsed w) = calls w ++ ((λ h, CallEvent h d) <$> hs) ∧
      console (onmessage E parsed w) =
        console w ++
          ((λ _, ErrHandler ty) <$> filter (λ h, handler_throws E h = true) hs)
  end.
Proof.
  destruct (onmessage_frame E parsed w) as (Ht & Hs & Hto).
  do 3 (split; [done|]). split; [apply onmessage_intervals|].
  destruct parsed as [[ty d]|]; simpl; [|done].
  unfold handleMessage. case_decide; simpl; [by rewrite !app_nil_r|].
  destruct (eventHandlers (this w) !! ty) as [hs|]; simpl;
    [|by rewrite !app_nil_r].
  by destruct (foldl_dispatch_log ty d hs w) as (-> & -> & _).
Qed.

End Dispatch.

(** ** The heartbeat *)

Section Heartbeat.
Variable E : Env.

Lemma clearHeartbeatTimer_intervals w :
  intervals (clearHeartbeatTimer w) =
  match heartbeatTimer (this w) with
  | Some t => cancel t (intervals w)
  | None => intervals w
  end.
Proof. unfold clearHeartbeatTimer. by destruct (heartbeatTimer (this w)). Qed.

Lemma heartbeat_cleared w :
  heartbeat_ok w → intervals (clearHeartbeatTimer w) = [].
Proof.
  unfold heartbeat_ok. rewrite clearHeartbeatTimer_intervals.
  destruct (heartbeatTimer (this w)) as [t|]; [|done].
  intros [d ->]. unfold cancel. by rewrite filter_cons_False by (intros H; by apply H).
Qed.

Lemma heartbeat_ok_frame w w' :
  heartbeatTimer (this w') = heartbeatTimer (this w) →
  intervals w' = intervals w →
  heartbeat_ok w → heartbeat_ok w'.
Proof. unfold heartbeat_ok. by intros -> ->. Qed.

Lemma startHeartbeat_ok w : heartbeat_ok w → heartbeat_ok (startHeartbeat w).
Proof.
  intros Hok. unfold heartbeat_ok. rewrite startHeartbeat_this. simpl.
  unfold startHeartbeat, setInterval. simpl.
  rewrite (heartbeat_cleared w Hok). autorewrite with world. simpl. eauto.
Qed.

Lemma onopen_heartbeat_ok w : heartbeat_ok w → heartbeat_ok (onopen E w).
Proof.
  intros Hok. unfold onopen. apply startHeartbeat_ok.
  eapply heartbeat_ok_frame; [| |exact Hok]; simpl; by autorewrite with world.
Qed.

Lemma clearHeartbeatTimer_ok w : heartbeat_ok w → heartbeat_ok (clearHeartbeatTimer w).
Proof.
  intros Hok. unfold heartbeat_ok.
  by rewrite clearHeartbeatTimer_this, (heartbeat_cleared w Hok).
Qed.

Lemma onclose_heartbeat_ok code w : heartbeat_ok w → heartbeat_ok (onclose E code w).
Proof.
  intros Hok.
  assert (heartbeat_ok (clearHeartbeatTimer (log (LogDisconnected code) w))) as H1.
  { apply clearHeartbeatTimer_ok. by eapply heartbeat_ok_frame; [| |exact Hok]. }
  unfold onclose. case_decide.
  - match goal with |- heartbeat_ok (scheduleReconnect E ?w2) =>
      destruct (scheduleReconnect_subscribers E w2) as (_ & _ & Hh & Hi & _)
    end.
    eapply heartbeat_ok_frame; [exact Hh|exact Hi|].
    eapply heartbeat_ok_frame; [| |exact H1]; by autorewrite with world.
  - eapply heartbeat_ok_frame; [| |exact H1]; by autorewrite with world.
Qed.

Lemma disconnect_heartbeat_ok w : heartbeat_ok w → heartbeat_ok (disconnect E w).
Proof.
  intros Hok. unfold heartbeat_ok. rewrite disconnect_this. simpl.
  unfold disconnect. simpl. autorewrite with world.
  assert (intervals (clearHeartbeatTimer (clearReconnectTimer w)) = []) as Hi.
  { apply heartbeat_cleared. eapply heartbeat_ok_frame; [| |exact Hok];
      by autorewrite with world. }
  match goal with |- context [match ?o with Some _ => _ | None => _ end] =>
    destruct o as [id|]
  end; simpl; autorewrite with world; [|done].
  unfold socket_close. repeat case_match; simpl; by autorewrite with world.
Qed.

Lemma heartbeat_step w e w' :
  heartbeat_ok w → step E w e = Some w' → heartbeat_ok w'.
Proof.
  intros Hok Hstep. destruct e; simpl in Hstep.
  - injection Hstep as <-.
    destruct (connect_subscribers E authToken0 w) as (_ & _ & Hh & Hi).
    by eapply heartbeat_ok_frame.
  - injection Hstep as <-. by apply disconnect_heartbeat_ok.
  - injection Hstep as <-. destruct (ws_is_open w) eqn:Hopen.
    + destruct (send_open type data w Hopen) as (id & s & _ & _ & ->). exact Hok.
    + rewrite send_closed by done. exact Hok.
  - by injection Hstep as <-.
  - injection Hstep as <-. unfold unsubscribe.
    destruct (eventHandlers (this w) !! eventType); [|done].
    by case_decide.
  - by injection Hstep as <-.
  - by injection Hstep as <-.
  - destruct (socket_state id w) as [[]|]; try done.
    injection Hstep as <-.
    assert (heartbeat_ok (set_readyState id WebSocket.OPEN w)) as H1.
    { eapply heartbeat_ok_frame; [| |exact Hok]; [by autorewrite with world|].
      unfold set_readyState. by destruct (sockets w !! id). }
    destruct (deliver_cases id (onopen E) (set_readyState id WebSocket.OPEN w))
      as [->|(s & _ & _ & ->)]; [done|by apply onopen_heartbeat_ok].
  - assert (w' = deliver id (onclose E code)
                   (set_readyState id WebSocket.CLOSED w)) as ->
      by (destruct (socket_state id w) as [[]|]; congruence).
    assert (heartbeat_ok (set_readyState id WebSocket.CLOSED w)) as H1.
    { eapply heartbeat_ok_frame; [| |exact Hok]; [by autorewrite with world|].
      unfold set_readyState. by destruct (sockets w !! id). }
    destruct (deliver_cases id (onclose E code)
                (set_readyState id WebSocket.CLOSED w))
      as [->|(s & _ & _ & ->)]; [done|by apply onclose_heartbeat_ok].
  - destruct (socket_state id w); [|done]. injection Hstep as <-.
    destruct (deliver_cases id (onerror E) w) as [->|(s & _ & _ & ->)];
      [done|].
    eapply heartbeat_ok_frame; [| |exact Hok]; unfold onerror;
      by autorewrite with world.
  - destruct (socket_state id w) as [[]|]; try done.
    injection Hstep as <-.
    destruct (deliver_cases id (onmessage E parsed) w)
      as [->|(s & _ & _ & ->)]; [done|].
    destruct (onmessage_frame E parsed w) as (Ht & _).
    eapply heartbeat_ok_frame;
      [by rewrite Ht|apply onmessage_intervals|exact Hok].
  - destruct (pending t (timeouts w)); [|done]. injection Hstep as <-.
    destruct (connect_subscribers E None (set_timeouts (cancel t (timeouts w)) w))
      as (_ & _ & Hh & Hi).
    by eapply heartbeat_ok_frame.
  - destruct (pending t (intervals w)); [|done]. injection Hstep as <-.
    unfold heartbeat. destruct (ws_is_open w) eqn:Hopen; [|done].
    destruct (send_open "ping" None w Hopen) as (id & s & _ & _ & ->). exact Hok.
  - case_decide; [|done]. by injection Hstep as <-.
Qed.

(** X5.  The heartbeat never leaks: in every reachable state at most one
    heartbeat interval is pending, and it is the one whose id the manager
    holds in [heartbeatTimer]; when the manager holds none, none is
    pending. *)
Theorem heartbeat_never_leaks (w : World) :
  reachable_from E (init E) w → heartbeat_ok w ∧ length (intervals w) ≤ 1.
Proof.
  intros Hr. assert (heartbeat_ok w) as Hok.
  { induction Hr as [|w e w' _ IH Hstep]; [done|]. by eapply heartbeat_step. }
  split; [done|]. unfold heartbeat_ok in Hok.
  destruct (heartbeatTimer (this w)); [destruct Hok as [d ->]|rewrite Hok]; simpl; lia.
Qed.

End Heartbeat.

Lemma heartbeat_never_leaks_witness :
  heartbeat_ok (after doubleConnect) ∧ length (intervals (after doubleConnect)) ≤ 1.
Proof.
  apply (heartbeat_never_leaks plainEnv).
  apply (run_reachable plainEnv _ doubleConnect (init plainEnv));
    [apply reach_refl|vm_compute; reflexivity].
Defined.

Section Transmission.
Variable E : Env.

(** X6.  A heartbeat tick returns normally and changes neither the manager,
    the console nor the timers.  On an open socket it queues exactly one
    envelope of type [ping] without data on the current socket; otherwise it
    does nothing at all: unlike [send] it writes no warning. *)
Theorem heartbeat_tick (w : World) :
  ∃ w',
    heartbeat w = Ok w' ∧
    this w' = this w ∧ console w' = console w ∧
    timeouts w' = timeouts w ∧ intervals w' = intervals w ∧
    (ws_is_open w = false → w' = w) ∧
    (ws_is_open w = true →
       ∃ id s, ws (this w) = Some id ∧ sockets w !! id = Some s ∧
         sockets w' =
           <[id := mkSocket (sock_url s) (readyState s) (listening s)
                     (sent s ++ [mkEnvelope "ping" None (now w)]) (closeArgs s)]>
             (sockets w)).
Proof.
  unfold heartbeat. destruct (ws_is_open w) eqn:Hopen.
  - destruct (send_open "ping" None w Hopen) as (id & s & Hws & Hs & ->).
    eexists. split; [done|]. do 5 (split; [done|]).
    intros _. by exists id, s.
  - exists w. by repeat split.
Qed.

(** X7.  For a payload [JSON.stringify] accepts, [send] returns normally in
    every state and never changes the manager or the timers.  It hands the
    envelope to the browser only when the current socket is open, so
    [socket.send] is never called on a connecting socket; the envelope
    carries the given type and data and the current time, and goes to the
    current socket's queue alone. *)
Theorem send_transmits_only_when_open (w : World) (type : string)
    (data : option Payload) :
  ∃ w',
    send type data w = Ok w' ∧
    this w' = this w ∧ timeouts w' = timeouts w ∧ intervals w' = intervals w ∧
    (sockets w' ≠ sockets w → ws_is_open w = true) ∧
    (ws_is_open w = true →
       console w' = console w ∧
       ∃ id s, ws (this w) = Some id ∧ sockets w !! id = Some s ∧
         readyState s = WebSocket.OPEN ∧
         sockets w' =
           <[id := mkSocket (sock_url s) (readyState s) (listening s)
                     (sent s ++ [mkEnvelope type data (now w)]) (closeArgs s)]>
             (sockets w)).
Proof.
  destruct (ws_is_open w) eqn:Hopen.
  - destruct (send_open type data w Hopen) as (id & s & Hws & Hs & ->).
    eexists. split; [done|]. do 4 (split; [done|]).
    intros _. split; [done|]. exists id, s. repeat split; try done.
    unfold ws_is_open in Hopen. rewrite Hws, Hs in Hopen.
    by apply bool_decide_eq_true in Hopen.
  - rewrite send_closed by done. eexists. split; [done|].
    do 3 (split; [done|]). split; [by intros H|done].
Qed.

Lemma disconnect_timeouts w :
  timeouts (disconnect E w) =
  match reconnectTimer (this w) with
  | Some t => cancel t (timeouts w)
  | None => timeouts w
  end.
Proof.
  destruct w as [[wsv cfg st att rt ht eh csh] socks tos ints nt nw con cl].
  unfold disconnect, clearReconnectTimer, clearHeartbeatTimer. simpl.
  destruct rt, ht, wsv; simpl; unfold socket_close; simpl;
    repeat case_match; simpl; by autorewrite with world.
Qed.

Lemma disconnect_sockets w :
  sockets (disconnect E w) =
  match ws (this w) with
  | Some id => sockets (socket_close id 1000 "Client disconnect" w)
  | None => sockets w
  end.
Proof.
  destruct w as [[wsv cfg st att rt ht eh csh] socks tos ints nt nw con cl].
  unfold disconnect, clearReconnectTimer, clearHeartbeatTimer. simpl.
  destruct rt, ht, wsv; simpl; unfold socket_close; simpl;
    repeat case_match; simpl; by autorewrite with world.
Qed.

Lemma disconnect_fixpoint w :
  reconnectTimer (this w) = None → heartbeatTimer (this w) = None →
  ws (this w) = None →
  connectionState (this w) = ConnectionState.DISCONNECTED →
  reconnectAttempts (this w) = 0%Z →
  disconnect E w = w.
Proof.
  destruct w as [[wsv cfg st att rt ht eh csh] socks tos ints nt nw con cl].
  simpl. intros -> -> -> -> ->.
  unfold disconnect, clearReconnectTimer, clearHeartbeatTimer, setConnectionState.
  simpl. done.
Qed.

(** X8.  [disconnect()] is safe in every state and idempotent.  Afterwards
    the manager is Disconnected with the counter at 0, holds no socket and no
    timer, the reconnect timer it held is no longer pending, and the socket it
    held is neither open nor connecting: if it was, it is now closing with
    code 1000 and reason [Client disconnect].  A second [disconnect()]
    changes nothing. *)
Theorem disconnect_settles (w : World) :
  connectionState (this (disconnect E w)) = ConnectionState.DISCONNECTED ∧
  reconnectAttempts (this (disconnect E w)) = 0%Z ∧
  ws (this (disconnect E w)) = None ∧
  reconnectTimer (this (disconnect E w)) = None ∧
  heartbeatTimer (this (disconnect E w)) = None ∧
  (∀ t, reconnectTimer (this w) = Some t →
        pending t (timeouts (disconnect E w)) = false) ∧
  (∀ id s, ws (this w) = Some id → sockets w !! id = Some s →
     ∃ s', sockets (disconnect E w) !! id = Some s' ∧
       readyState s' ≠ WebSocket.OPEN ∧ readyState s' ≠ WebSocket.CONNECTING ∧
       (readyState s = WebSocket.OPEN ∨ readyState s = WebSocket.CONNECTING →
        readyState s' = WebSocket.CLOSING ∧
        closeArgs s' = Some (1000%Z, "Client disconnect"))) ∧
  disconnect E (disconnect E w) = disconnect E w.
Proof.
  do 5 (split; [by rewrite disconnect_this|]). split; [|split].
  - intros t Ht. rewrite disconnect_timeouts, Ht. apply pending_cancel.
  - intros id s Hws Hs. rewrite disconnect_sockets, Hws.
    assert (id < length (sockets w)) by (by eapply lookup_lt_Some).
    unfold socket_close. rewrite Hs.
    destruct (readyState s) eqn:Hr; simpl.
    + eexists. rewrite list_lookup_insert_eq by done. by repeat split.
    + eexists. rewrite list_lookup_insert_eq by done. by repeat split.
    + exists s. rewrite Hr. split; [done|]. split; [done|]. split; [done|].
      intros [?|?]; done.
    + exists s. rewrite Hr. split; [done|]. split; [done|]. split; [done|].
      intros [?|?]; done.
  - apply disconnect_fixpoint; by rewrite disconnect_this.
Qed.

(** X9.  In every reachable state an error event of a socket only moves the
    manager to Error: the reconnection policy is not evaluated, so the
    counter, the timers, the sockets and the current socket are as
    before. *)
Theorem error_event_only_sets_error (w w' : World) (id : nat) :
  reachable_from E (init E) w →
  step E w (SocketError id) = Some w' →
  connectionState (this w') = ConnectionState.ERROR ∧
  reconnectAttempts (this w') = reconnectAttempts (this w) ∧
  reconnectTimer (this w') = reconnectTimer (this w) ∧
  ws (this w') = ws (this w) ∧
  timeouts w' = timeouts w ∧ sockets w' = sockets w.
Proof.
  intros Hr Hstep. simpl in Hstep. unfold socket_state in Hstep.
  destruct (sockets w !! id) as [s|] eqn:Hs; [|done]. simpl in Hstep.
  injection Hstep as <-. unfold deliver. rewrite Hs.
  rewrite (listening_lookup _ _ _ (listening_reachable E w Hr) Hs).
  by autorewrite with world.
Qed.

Lemma foldl_notify_console s hs w :
  ∃ l, console (foldl (notify_state E s) w hs) = console w ++ l.
Proof.
  revert w. induction hs as [|h hs IH]; intros w; simpl.
  - exists []. by rewrite app_nil_r.
  - destruct (IH (notify_state E s w h)) as [l ->]. unfold notify_state.
    destruct (handler_throws E h); simpl; [|by eexists].
    rewrite <- app_assoc. by eexists.
Qed.

Lemma setConnectionState_console s w :
  ∃ l, console (setConnectionState E s w) = console w ++ l.
Proof.
  unfold setConnectionState. case_decide.
  - exists []. by rewrite app_nil_r.
  - apply (foldl_notify_console s _ (upd_this (set_connectionState s) w)).
Qed.

Lemma scheduleReconnect_console w :
  ∃ l, console (scheduleReconnect E w) = console w ++ l.
Proof.
  unfold scheduleReconnect. case_decide.
  - destruct (setConnectionState_console ConnectionState.ERROR
                (log ErrMaxAttempts w)) as [l ->].
    simpl. rewrite <- app_assoc. by eexists.
  - unfold setTimeout. simpl.
    match goal with |- context [setConnectionState E ?s ?w0] =>
      destruct (setConnectionState_console s w0) as [l ->]
    end.
    simpl. rewrite <- app_assoc. by eexists.
Qed.

(** X10.  When the socket is not open and the URL cannot be built or the
    constructor rejects it, [connect] adds no socket and keeps [this.ws] as
    it was, logs the failure, and hands over to the reconnection policy: with
    attempts to spare it ends in Reconnecting with the counter incremented
    and a timer of [reconnectInterval] times the new count, otherwise it ends
    in Error with no new timer. *)
Theorem connect_failure (w : World) (tok : option string) :
  ws_is_open w = false →
  (∀ u, wsUrl E (config (this (store_authToken tok w))) = Some u →
        valid_url E u = false) →
  sockets (connect E tok w) = sockets w ∧
  ws (this (connect E tok w)) = ws (this w) ∧
  ErrConnectionFailed ∈ console (connect E tok w) ∧
  ((reconnectAttempts (this w) < maxReconnectAttempts (config (this w)))%Z →
     connectionState (this (connect E tok w)) = ConnectionState.RECONNECTING ∧
     reconnectAttempts (this (connect E tok w)) =
       (reconnectAttempts (this w) + 1)%Z ∧
     scheduled_delay (connect E tok w) =
       Some (reconnectInterval (config (this w)) *
             (reconnectAttempts (this w) + 1))%Z) ∧
  ((reconnectAttempts (this w) >= maxReconnectAttempts (config (this w)))%Z →
     connectionState (this (connect E tok w)) = ConnectionState.ERROR ∧
     reconnectAttempts (this (connect E tok w)) = reconnectAttempts (this w) ∧
     timeouts (connect E tok w) ⊆ timeouts w).
Proof.
  intros Hopen Hbad.
  destruct (connect_prefix_frame E tok w) as (Hs & Ha & Hm & Hc & Hsub).
  destruct (store_authToken_frame tok w) as (_ & _ & _ & _ & Hws & _).
  destruct (connect_cases E w tok) as [[? _]|[(_ & u & Hu & Hv & _)|[_ ->]]].
  - congruence.
  - rewrite Hc in Hu. rewrite (Hbad u Hu) in Hv. done.
  - set (w1 := clearReconnectTimer
                 (setConnectionState E ConnectionState.CONNECTING
                    (store_authToken tok w))) in *.
    set (w2 := setConnectionState E ConnectionState.ERROR
                 (log ErrConnectionFailed w1)).
    assert (reconnectAttempts (this w2) = reconnectAttempts (this w)) as Ha2
      by (unfold w2; autorewrite with world; simpl; exact Ha).
    assert (config (this w2) = config (this w1)) as Hc2
      by (unfold w2; by autorewrite with world).
    assert (timeouts w2 = timeouts w1) as Ht2
      by (unfold w2; by autorewrite with world).
    split; [|split; [|split; [|split]]].
    + rewrite scheduleReconnect_sockets. unfold w2. by autorewrite with world.
    + destruct (scheduleReconnect_subscribers E w2) as (_ & _ & _ & _ & ->).
      unfold w2, w1. autorewrite with world. simpl. autorewrite with world.
      simpl. exact Hws.
    + destruct (scheduleReconnect_console w2) as [l ->].
      destruct (setConnectionState_console ConnectionState.ERROR
                  (log ErrConnectionFailed w1)) as [l' Hl'].
      unfold w2. rewrite Hl'. simpl.
      apply elem_of_app. left. apply elem_of_app. left.
      apply elem_of_app. right. by apply list_elem_of_singleton.
    + intros Hlt.
      rewrite scheduleReconnect_retry_this, scheduled_delay_retry
        by (rewrite Ha2, Hc2, Hm; exact Hlt).
      simpl. rewrite Ha2, Hc2.
      assert (reconnectInterval (config (this w1)) =
              reconnectInterval (config (this w))) as ->; [|done].
      rewrite Hc. clear. unfold store_authToken.
      destruct tok as [tok|]; [|done]. by destruct (truthy tok).
    + intros Hge.
      destruct (scheduleReconnect_timeouts_exhausted E w2) as (-> & -> & ->);
        [rewrite Ha2, Hc2, Hm; exact Hge|].
      rewrite Ha2, Ht2. done.
Qed.

End Transmission.

(** ** More laws of the status aggregator *)

Section AggregatorLaws.

Lemma replace_ids (task : Provider.Task) (l : list Provider.Task) :
  Provider.id <$>
    map (λ t, if decide (Provider.id t = Provider.id task) then task else t) l =
  Provider.id <$> l.
Proof.
  induction l as [|a l IH]; [done|]. cbn [map]. rewrite !fmap_cons, IH.
  f_equal. by case_decide.
Qed.

Lemma replace_replace (task : Provider.Task) (l : list Provider.Task) :
  map (λ t, if decide (Provider.id t = Provider.id task) then task else t)
    (map (λ t, if decide (Provider.id t = Provider.id task) then task else t) l) =
  map (λ t, if decide (Provider.id t = Provider.id task) then task else t) l.
Proof.
  induction l as [|a l IH]; [done|]. cbn [map]. rewrite IH. f_equal.
  destruct (decide (Provider.id a = Provider.id task)) as [Ha|Ha].
  - by rewrite decide_True.
  - by rewrite decide_False.
Qed.

Lemma find_snoc_self (task : Provider.Task) (l : list Provider.Task) :
  is_Some (find (λ t, bool_decide (Provider.id t = Provider.id task)) (l ++ [task])).
Proof.
  apply (find_present task _ task); [|done].
  apply elem_of_app. right. by apply list_elem_of_singleton.
Qed.

(** The list a [task-update] leaves, spelled out: the ids are those of the
    old list, followed by the update's id when no task carried it. *)
Lemma mergeTask_cases (task : Provider.Task) (prev : Provider.ProcessingStatus) :
  ∃ next,
    Provider.mergeTask task (Some prev) = Some next ∧
    Provider.activeAgents next = Provider.activeAgents prev ∧
    Provider.queueLength next = Provider.queueLength prev ∧
    Provider.estimatedCompletion next = Provider.estimatedCompletion prev ∧
    is_Some (find (λ t, bool_decide (Provider.id t = Provider.id task))
               (Provider.currentTasks next)) ∧
    map (λ t, if decide (Provider.id t = Provider.id task) then task else t)
      (Provider.currentTasks next) = Provider.currentTasks next ∧
    ((Provider.id task ∈ (Provider.id <$> Provider.currentTasks prev) ∧
      (Provider.id <$> Provider.currentTasks next) =
        (Provider.id <$> Provider.currentTasks prev)) ∨
     ((Provider.id task ∉ (Provider.id <$> Provider.currentTasks prev)) ∧
      Provider.currentTasks next = Provider.currentTasks prev ++ [task])).
Proof.
  eexists. split; [reflexivity|]. simpl. do 3 (split; [done|]).
  set (f := λ t, if decide (Provider.id t = Provider.id task) then task else t).
  destruct (find (λ t, bool_decide (Provider.id t = Provider.id task))
              (map f (Provider.currentTasks prev))) as [x|] eqn:Hfind.
  - split; [by rewrite Hfind|]. split; [apply replace_replace|]. left.
    split; [|apply replace_ids].
    apply find_some in Hfind as [Hin Hx]. apply bool_decide_eq_true in Hx.
    rewrite <- Hx, <- (replace_ids task). apply list_elem_of_fmap_2.
    by apply list_elem_of_In.
  - assert (∀ t, t ∈ Provider.currentTasks prev →
                 Provider.id t ≠ Provider.id task) as Habs.
    { intros t Ht Heq.
      pose proof (find_none _ _ Hfind (f t)) as Hn. simpl in Hn.
      rewrite bool_decide_eq_false in Hn. apply Hn.
      - apply list_elem_of_In. by apply (list_elem_of_fmap_2 f).
      - unfold f. by rewrite decide_True. }
    subst f. cbv beta. rewrite (replace_absent task _ Habs).
    split; [apply find_snoc_self|]. split.
    + rewrite map_app, (replace_absent task _ Habs). simpl.
      by rewrite decide_True.
    + right. split; [|done].
      intros (t & Heq & Ht)%list_elem_of_fmap. by apply (Habs t).
Qed.

(** X11.  A [task-update] is idempotent: delivering the same update twice in
    a row leaves the status the first delivery produced, whether or not the
    task ids of the snapshot are distinct. *)
Theorem mergeTask_idempotent (task : Provider.Task)
    (prev : option Provider.ProcessingStatus) :
  Provider.mergeTask task (Provider.mergeTask task prev) =
  Provider.mergeTask task prev.
Proof.
  destruct prev as [prev|]; [|done].
  destruct (mergeTask_cases task prev) as (next & -> & _ & _ & _ & [x Hx] & Hmap & _).
  unfold Provider.mergeTask. rewrite Hmap, Hx. by destruct next.
Qed.

(** X12.  A [task-update] never removes or reorders a task: the ids of the
    old list stay where they are, and the list grows by exactly the update
    when no task carried its id.  If the ids were pairwise distinct they are
    so afterwards. *)
Theorem mergeTask_keeps_ids (task : Provider.Task)
    (prev : Provider.ProcessingStatus) :
  ∃ next,
    Provider.mergeTask task (Some prev) = Some next ∧
    (Provider.id <$> Provider.currentTasks prev) `prefix_of`
      (Provider.id <$> Provider.currentTasks next) ∧
    length (Provider.currentTasks prev) ≤ length (Provider.currentTasks next) ≤
      S (length (Provider.currentTasks prev)) ∧
    Provider.id task ∈ (Provider.id <$> Provider.currentTasks next) ∧
    (NoDup (Provider.id <$> Provider.currentTasks prev) →
     NoDup (Provider.id <$> Provider.currentTasks next)).
Proof.
  destruct (mergeTask_cases task prev)
    as (next & Hm & _ & _ & _ & _ & _ & [[Hin Hids]|[Hnin Htasks]]).
  - exists next. split; [done|]. rewrite Hids. split; [done|].
    assert (length (Provider.currentTasks next) =
            length (Provider.currentTasks prev)) as Hlen
      by (by rewrite <- (length_fmap Provider.id), Hids, length_fmap).
    rewrite Hlen. repeat split; [lia|lia|done|done].
  - exists next. split; [done|]. rewrite Htasks, fmap_app. simpl.
    split; [by apply prefix_app_r|]. rewrite length_app. simpl.
    repeat split; [lia|lia| |].
    + apply elem_of_app. right. by apply list_elem_of_singleton.
    + intros Hnd. apply NoDup_app. repeat split; [done| |apply NoDup_singleton].
      intros x Hx ->%list_elem_of_singleton. done.
Qed.

Lemma feed_deltas_frame (ds : list Provider.Message) :
  ∀ st p,
    Forall (λ m, Provider.is_snapshot m = false) ds →
    Provider.processingStatus st = Some p →
    ∃ q, Provider.processingStatus (Provider.feed st ds) = Some q ∧
      Provider.activeAgents q = Provider.activeAgents p ∧
      Provider.queueLength q = Provider.queueLength p ∧
      Provider.estimatedCompletion q = Provider.estimatedCompletion p ∧
      (Provider.id <$> Provider.currentTasks p) `prefix_of`
        (Provider.id <$> Provider.currentTasks q).
Proof.
  induction ds as [|m ds IH]; intros st p Hall Hp.
  - exists p. by repeat split.
  - apply Forall_cons in Hall as [Hm Hall].
    destruct m as [s d|t d]; simpl in Hm; [done|].
    destruct (mergeTask_cases t p)
      as (next & Hnext & Ha & Hq & He & _ & _ & Hids).
    destruct (IH (Provider.onTaskUpdate t d st) next Hall)
      as (q & Hfeed & Ha' & Hq' & He' & Hpre).
    { simpl. by rewrite Hp. }
    exists q. split; [exact Hfeed|].
    rewrite Ha', Hq', He'. do 3 (split; [done|]).
    etrans; [|exact Hpre].
    destruct Hids as [[_ ->]|[_ ->]]; [done|].
    rewrite fmap_app. by apply prefix_app_r.
Qed.

(** X13.  A snapshot replaces the status wholesale, whatever came before.
    The [task-update]s that follow it leave [activeAgents], [queueLength]
    and [estimatedCompletion] as the snapshot gave them and keep every task
    of the snapshot at its position. *)
Theorem snapshot_then_deltas (st : Provider.State) (ms ds : list Provider.Message)
    (s : Provider.ProcessingStatus) (d : Z) :
  Provider.processingStatus (Provider.feed st (ms ++ [Provider.Snapshot s d])) =
    Some s ∧
  (Forall (λ m, Provider.is_snapshot m = false) ds →
   ∃ q,
     Provider.processingStatus
       (Provider.feed st (ms ++ Provider.Snapshot s d :: ds)) = Some q ∧
     Provider.activeAgents q = Provider.activeAgents s ∧
     Provider.queueLength q = Provider.queueLength s ∧
     Provider.estimatedCompletion q = Provider.estimatedCompletion s ∧
     (Provider.id <$> Provider.currentTasks s) `prefix_of`
       (Provider.id <$> Provider.currentTasks q)).
Proof.
  split; [by rewrite feed_snoc|].
  intros Hall. unfold Provider.feed. rewrite foldl_app. simpl.
  by apply feed_deltas_frame.
Qed.

(** X14.  Every event the provider handles stamps [lastActivity] with the
    time it was handled, including a [task-update] that is dropped because
    no snapshot has arrived: then the status is still [null] while
    [lastActivity] is set. *)
Theorem lastActivity_is_last_event (st : Provider.State)
    (ms : list Provider.Message) (m : Provider.Message) :
  Provider.lastActivity (Provider.feed st (ms ++ [m])) =
    Some (match m with
          | Provider.Snapshot _ d => d
          | Provider.Delta _ d => d
          end) ∧
  (∀ task d,
     Provider.feed Provider.initial [Provider.Delta task d] =
     Provider.mkState None (Some d)).
Proof.
  split; [|done]. rewrite feed_snoc. by destruct m.
Qed.

Lemma mergeTask_keeps_ids_aux (task : Provider.Task)
    (prev : Provider.ProcessingStatus) :
  ∃ next,
    Provider.mergeTask task (Some prev) = Some next ∧
    1 ≤ length (Provider.currentTasks next).
Proof.
  destruct (mergeTask_cases task prev)
    as (next & Hm & _ & _ & _ & [x Hx] & _ & _).
  exists next. split; [done|].
  destruct (Provider.currentTasks next); [done|simpl; lia].
Qed.

(** X15.  After a [task-update] has been merged into a received snapshot the
    [ProcessingStatus] panel is rendered, and its compact label counts the
    running tasks: at least one, in the plural exactly when there is more
    than one. *)
Theorem panel_after_update (task : Provider.Task)
    (prev : Provider.ProcessingStatus) :
  ∃ next,
    Provider.mergeTask task (Some prev) = Some next ∧
    ProcessingStatusView.renders (Some next) = true ∧
    1 ≤ length (Provider.currentTasks next) ∧
    ProcessingStatusView.compactLabel next =
      pretty (length (Provider.currentTasks next)) +:+ " task" +:+
      (if decide (1 < length (Provider.currentTasks next)) then "s" else "") +:+
      " running".
Proof.
  destruct (mergeTask_keeps_ids_aux task prev) as (next & Hm & Hlen).
  exists next. split; [done|].
  unfold ProcessingStatusView.renders, ProcessingStatusView.compactLabel.
  rewrite bool_decide_eq_true_2 by lia. simpl.
  split; [done|]. split; [lia|]. by rewrite decide_True by lia.
Qed.

End AggregatorLaws.

(** ** The two status components *)

Section Components.

(** X16.  [formatLastActivity] shows whole elapsed units.  For an activity
    in the past it prints the elapsed seconds while below a minute, the
    elapsed whole minutes (1 to 59) while below an hour, and the elapsed
    whole hours (at least 1) from then on, so it never prints [0m] or [0h].
    For an activity time ahead of the clock it prints a negative number of
    seconds.  Without an activity it returns [null]. *)
Theorem formatLastActivity_buckets (now last : Z) :
  ((last <= now)%Z →
   ∃ n unit,
     ConnectionStatus.formatLastActivity now (Some last) =
       Some (pretty n +:+ unit) ∧
     ((unit = "s ago" ∧ n = ((now - last) / 1000)%Z ∧ (0 <= n < 60)%Z) ∨
      (unit = "m ago" ∧ n = ((now - last) / 60000)%Z ∧ (1 <= n < 60)%Z) ∨
      (unit = "h ago" ∧ n = ((now - last) / 3600000)%Z ∧ (1 <= n)%Z))) ∧
  ((now < last)%Z →
   ConnectionStatus.formatLastActivity now (Some last) =
     Some (pretty ((now - last) / 1000)%Z +:+ "s ago") ∧
   ((now - last) / 1000 < 0)%Z) ∧
  ConnectionStatus.formatLastActivity now None = None.
Proof.
  split; [|split; [|done]].
  - intros Hle. unfold ConnectionStatus.formatLastActivity.
    assert (0 <= (now - last) / 1000)%Z as Hs by (apply Z.div_pos; lia).
    destruct (decide ((now - last) / 1000 < 60)%Z) as [H1|H1].
    + eexists _, _. split; [done|]. left. repeat split; lia.
    + destruct (decide ((now - last) / 1000 < 3600)%Z) as [H2|H2].
      * eexists _, _. split; [done|]. right. left. split; [done|].
        rewrite Z.div_div by lia. split; [done|].
        change (1000 * 60)%Z with 60000%Z.
        rewrite <- (Z.div_div _ 1000 60) by lia.
        split; [apply Z.div_le_lower_bound; lia|apply Z.div_lt_upper_bound; lia].
      * eexists _, _. split; [done|]. right. right. split; [done|].
        rewrite Z.div_div by lia. split; [done|].
        change (1000 * 3600)%Z with 3600000%Z.
        rewrite <- (Z.div_div _ 1000 3600) by lia.
        apply Z.div_le_lower_bound; lia.
  - intros Hlt. unfold ConnectionStatus.formatLastActivity.
    assert ((now - last) / 1000 < 0)%Z as Hneg
      by (apply Z.div_lt_upper_bound; lia).
    rewrite decide_True by lia. done.
Qed.

(** X17.  The status text tells the five connection states apart; the
    colour does not (Connecting and Reconnecting share yellow), and the
    pulsing overlay is drawn exactly for the states shown in yellow. *)
Theorem status_text_distinguishes_states (a b : ConnectionState.t) :
  (ConnectionStatus.getStatusText a = ConnectionStatus.getStatusText b → a = b) ∧
  (ConnectionStatus.pulses a = true ↔
   ConnectionStatus.getStatusColor a = "bg-yellow-500") ∧
  (ConnectionStatus.getStatusColor a = ConnectionStatus.getStatusColor b →
   a = b ∨ (ConnectionStatus.pulses a = true ∧ ConnectionStatus.pulses b = true)).
Proof.
  split; [|split].
  - by destruct a, b.
  - by destruct a.
  - destruct a, b; simpl; intros H; try discriminate H; auto.
Qed.

End Components.

(** ** The provider's auto-connect effect *)

Section AutoConnect.
Variable E : Env.




End AutoConnect.

(** ** What a state-change listener has seen *)

Section Listener.
Variable E : Env.
Variable h : nat.

Lemma observed_app cs cs' :
  observed h (cs ++ cs') =
  foldl (λ s c,
           match c with
           | CallState h' s' => if decide (h' = h) then s' else s
           | CallEvent _ _ => s
           end) (observed h cs) cs'.
Proof. unfold observed. by rewrite foldl_app. Qed.

Lemma observed_notified s0 s hs :
  foldl (λ s c,
           match c with
           | CallState h' s' => if decide (h' = h) then s' else s
           | CallEvent _ _ => s
           end) s0 ((λ h', CallState h' s) <$> hs) =
  if decide (h ∈ hs) then s else s0.
Proof.
  revert s0. induction hs as [|a hs IH]; intros s0.
  - destruct (decide (h ∈ [])) as [Hin|_]; [by apply elem_of_nil in Hin|done].
  - rewrite fmap_cons. cbn [foldl]. rewrite IH.
    destruct (decide (h ∈ a :: hs)) as [Hin|Hnin];
      destruct (decide (h ∈ hs)) as [Hin'|Hnin'];
      destruct (decide (a = h)) as [->|Hne]; try done.
    + apply elem_of_cons in Hin as [?|?]; [by subst|done].
    + exfalso. apply Hnin. by right.
    + exfalso. apply Hnin. by right.
    + exfalso. apply Hnin. by left.
Qed.

Lemma observed_events s0 d hs :
  foldl (λ s c,
           match c with
           | CallState h' s' => if decide (h' = h) then s' else s
           | CallEvent _ _ => s
           end) s0 ((λ h', CallEvent h' d) <$> hs) = s0.
Proof. revert s0. induction hs as [|a hs IH]; intros s0; simpl; [done|apply IH]. Qed.

Lemma foldl_notify_calls s hs w :
  calls (foldl (notify_state E s) w hs) = calls w ++ ((λ h', CallState h' s) <$> hs).
Proof.
  revert w. induction hs as [|a hs IH]; intros w; simpl.
  - by rewrite app_nil_r.
  - rewrite IH. unfold notify_state.
    destruct (handler_throws E a); simpl; by rewrite <- app_assoc.
Qed.

(** One [setConnectionState] acts on the listener's view as [viewSet]. *)
Lemma view_setConnectionState s w :
  view h (setConnectionState E s w) = viewSet h s (view h w).
Proof.
  unfold view, viewSet, setConnectionState. case_decide as Hs; [done|].
  set (w1 := upd_this (set_connectionState s) w).
  destruct (foldl_notify_state E s (connectionStateHandlers (this w1)) w1)
    as (-> & _).
  rewrite foldl_notify_calls, observed_app, observed_notified. done.
Qed.

Lemma sync_setConnectionState s w :
  in_sync (view h w) h → in_sync (view h (setConnectionState E s w)) h.
Proof.
  rewrite view_setConnectionState. unfold in_sync, viewSet, view. simpl.
  intros [Hin Heq]. case_decide; [done|]. simpl. split; [done|].
  by rewrite decide_True.
Qed.

Lemma sync_eq w w' :
  view h w' = view h w → in_sync (view h w) h → in_sync (view h w') h.
Proof. by intros ->. Qed.

Lemma view_clearReconnectTimer w : view h (clearReconnectTimer w) = view h w.
Proof. unfold clearReconnectTimer. by destruct (reconnectTimer (this w)). Qed.

Lemma view_clearHeartbeatTimer w : view h (clearHeartbeatTimer w) = view h w.
Proof. unfold clearHeartbeatTimer. by destruct (heartbeatTimer (this w)). Qed.

Lemma view_store_authToken tok w : view h (store_authToken tok w) = view h w.
Proof.
  unfold store_authToken. destruct tok as [tok|]; [|done]. by destruct (truthy tok).
Qed.

Lemma view_set_readyState id r w : view h (set_readyState id r w) = view h w.
Proof. unfold set_readyState. by destruct (sockets w !! id). Qed.

Lemma view_socket_close id code reason w :
  view h (socket_close id code reason w) = view h w.
Proof.
  unfold socket_close. destruct (sockets w !! id) as [s|]; [|done].
  by destruct (readyState s).
Qed.

Lemma view_dispatch ty d hs w : view h (foldl (dispatch E ty d) w hs) = view h w.
Proof.
  unfold view. destruct (foldl_dispatch E ty d hs w) as (-> & _).
  destruct (foldl_dispatch_log E ty d hs w) as (-> & _).
  by rewrite observed_app, observed_events.
Qed.

Ltac sync_peel :=
  match goal with
  | |- in_sync (view _ (setConnectionState _ _ _)) _ =>
      apply sync_setConnectionState
  | |- in_sync (view _ (clearReconnectTimer ?X)) _ =>
      apply (sync_eq X); [apply view_clearReconnectTimer|]
  | |- in_sync (view _ (clearHeartbeatTimer ?X)) _ =>
      apply (sync_eq X); [apply view_clearHeartbeatTimer|]
  | |- in_sync (view _ (store_authToken _ ?X)) _ =>
      apply (sync_eq X); [apply view_store_authToken|]
  | |- in_sync (view _ (set_readyState _ _ ?X)) _ =>
      apply (sync_eq X); [apply view_set_readyState|]
  | |- in_sync (view _ (socket_close _ _ _ ?X)) _ =>
      apply (sync_eq X); [apply view_socket_close|]
  | |- in_sync (view _ (log _ ?X)) _ => apply (sync_eq X); [reflexivity|]
  | |- in_sync (view _ (upd_this _ ?X)) _ => apply (sync_eq X); [reflexivity|]
  | |- in_sync (view _ (set_sockets _ ?X)) _ => apply (sync_eq X); [reflexivity|]
  | |- in_sync (view _ (set_timeouts _ ?X)) _ => apply (sync_eq X); [reflexivity|]
  | |- in_sync (view _ (set_intervals _ ?X)) _ => apply (sync_eq X); [reflexivity|]
  | |- in_sync (view _ (set_next_timer _ ?X)) _ => apply (sync_eq X); [reflexivity|]
  | |- in_sync (view _ (set_now _ ?X)) _ => apply (sync_eq X); [reflexivity|]
  end.

Lemma sync_scheduleReconnect w :
  in_sync (view h w) h → in_sync (view h (scheduleReconnect E w)) h.
Proof.
  intros H. unfold scheduleReconnect. case_decide; unfold setTimeout;
    cbv zeta; repeat sync_peel; exact H.
Qed.

Lemma sync_connect tok w :
  in_sync (view h w) h → in_sync (view h (connect E tok w)) h.
Proof.
  intros H.
  destruct (connect_cases E w tok) as [[_ ->]|[(_ & u & _ & _ & ->)|[_ ->]]].
  - exact H.
  - repeat sync_peel. exact H.
  - apply sync_scheduleReconnect. repeat sync_peel. exact H.
Qed.

Lemma sync_disconnect w :
  in_sync (view h w) h → in_sync (view h (disconnect E w)) h.
Proof.
  intros H. unfold disconnect. cbv zeta. repeat sync_peel.
  match goal with |- context [match ?o with Some _ => _ | None => _ end] =>
    destruct o
  end; repeat sync_peel; exact H.
Qed.

Lemma sync_onopen w : in_sync (view h w) h → in_sync (view h (onopen E w)) h.
Proof.
  intros H. unfold onopen, startHeartbeat, setInterval. cbv zeta.
  repeat sync_peel. exact H.
Qed.

Lemma sync_onclose code w :
  in_sync (view h w) h → in_sync (view h (onclose E code w)) h.
Proof.
  intros H. unfold onclose. cbv zeta. case_decide.
  - apply sync_scheduleReconnect. repeat sync_peel. exact H.
  - repeat sync_peel. exact H.
Qed.

Lemma sync_onerror w : in_sync (view h w) h → in_sync (view h (onerror E w)) h.
Proof. intros H. unfold onerror. cbv zeta. repeat sync_peel. exact H. Qed.

Lemma sync_onmessage parsed w :
  in_sync (view h w) h → in_sync (view h (onmessage E parsed w)) h.
Proof.
  intros H. unfold onmessage. destruct parsed as [[ty d]|]; [|by sync_peel].
  unfold handleMessage. case_decide; [done|].
  destruct (eventHandlers (this w) !! ty) as [hs|]; [|done].
  apply (sync_eq w); [apply view_dispatch|done].
Qed.

Lemma sync_send type data w :
  in_sync (view h w) h → in_sync (view h (settle w (send type data w))) h.
Proof.
  intros H. destruct (ws_is_open w) eqn:Hopen.
  - by destruct (send_open type data w Hopen) as (id & s & _ & _ & ->).
  - by rewrite send_closed.
Qed.

Lemma sync_deliver id listener w :
  (∀ w0, in_sync (view h w0) h → in_sync (view h (listener w0)) h) →
  in_sync (view h w) h → in_sync (view h (deliver id listener w)) h.
Proof.
  intros Hl H. destruct (deliver_cases id listener w) as [->|(s & _ & _ & ->)];
    [done|by apply Hl].
Qed.

Lemma sync_step w e w' :
  e ≠ CallUnsubscribeState h →
  step E w e = Some w' →
  in_sync (view h w) h → in_sync (view h w') h.
Proof.
  intros Hne Hstep H. destruct e; simpl in Hstep.
  - injection Hstep as <-. by apply sync_connect.
  - injection Hstep as <-. by apply sync_disconnect.
  - injection Hstep as <-. by apply sync_send.
  - by injection Hstep as <-.
  - injection Hstep as <-. unfold unsubscribe.
    destruct (eventHandlers (this w) !! eventType); [|done].
    by case_decide.
  - injection Hstep as <-. destruct H as [Hin Heq]. split; [|done]. simpl.
    unfold set_add. case_decide; [done|]. apply elem_of_app. by left.
  - injection Hstep as <-. destruct H as [Hin Heq]. split; [|done]. simpl.
    apply list_elem_of_filter. split; [congruence|done].
  - destruct (socket_state id w) as [[]|]; try done.
    injection Hstep as <-.
    apply sync_deliver; [apply sync_onopen|]. by sync_peel.
  - assert (w' = deliver id (onclose E code)
                   (set_readyState id WebSocket.CLOSED w)) as ->
      by (destruct (socket_state id w) as [[]|]; congruence).
    apply sync_deliver; [apply sync_onclose|]. by sync_peel.
  - destruct (socket_state id w); [|done]. injection Hstep as <-.
    by apply sync_deliver; [apply sync_onerror|].
  - destruct (socket_state id w) as [[]|]; try done.
    injection Hstep as <-.
    by apply sync_deliver; [apply sync_onmessage|].
  - destruct (pending t (timeouts w)); [|done]. injection Hstep as <-.
    apply sync_connect. by sync_peel.
  - destruct (pending t (intervals w)); [|done]. injection Hstep as <-.
    unfold heartbeat. destruct (ws_is_open w); [|done].
    by apply sync_send.
  - case_decide; [|done]. injection Hstep as <-. by sync_peel.
Qed.

Lemma sync_run es :
  ∀ w w',
    Forall (λ e, e ≠ CallUnsubscribeState h) es →
    run E w es = Some w' →
    in_sync (view h w) h → in_sync (view h w') h.
Proof.
  induction es as [|e es IH]; intros w w' Hall Hrun H; simpl in Hrun.
  - by injection Hrun as <-.
  - destruct (step E w e) as [w1|] eqn:Hstep; [|done].
    apply Forall_cons in Hall as [He Hall].
    eapply IH; [done|done|]. by eapply sync_step.
Qed.

(** X19.  A state-change listener that is registered while the state it saw
    last (Disconnected, if it saw none) is the manager's state stays
    informed: as long as it is not unsubscribed, after every sequence of
    steps the last state it was notified of is the manager's current state.
    This is how the provider's [connectionState] follows the manager, and it
    holds in particular for a listener registered on the freshly loaded
    module. *)
Theorem listener_mirrors_state (w0 w : World) (es : list Event) :
  observed h (calls w0) = connectionState (this w0) →
  run E (onConnectionStateChange h w0) es = Some w →
  Forall (λ e, e ≠ CallUnsubscribeState h) es →
  observed h (calls w) = connectionState (this w) ∧
  h ∈ connectionStateHandlers (this w).
Proof.
  intros H0 Hrun Hall.
  assert (in_sync (view h (onConnectionStateChange h w0)) h) as Hs.
  { split; [|exact H0]. simpl. unfold set_add. case_decide; [done|].
    apply elem_of_app. right. by apply list_elem_of_singleton. }
  destruct (sync_run es _ w Hall Hrun Hs) as [Hin Heq]. by split.
Qed.

End Listener.

(** ** Instances of the theorems above at concrete inputs *)

Lemma subscription_is_a_set_witness :
  eventHandlers
    (this (unsubscribe "sync-status" 4
             (on "sync-status" 4 (on "sync-status" 4 (init plainEnv))))) !!
    "sync-status" = None.
Proof.
  destruct (subscription_is_a_set (init plainEnv) "sync-status" 4)
    as (_ & _ & H).
  destruct (eventHandlers _ !! "sync-status") as [hs|] eqn:Hl; [|done].
  specialize (H hs eq_refl). vm_compute in Hl. discriminate.
Defined.

Lemma heartbeat_tick_witness :
  heartbeat (after oneAbnormalClose) = Ok (after oneAbnormalClose).
Proof.
  destruct (heartbeat_tick (after oneAbnormalClose))
    as (w' & -> & _ & _ & _ & _ & Hclosed & _).
  f_equal. apply Hclosed. vm_compute. reflexivity.
Defined.

Lemma send_transmits_only_when_open_witness :
  ∃ w', send "chat" (Some "hi") (after [CallConnect None; SocketOpen 0]) = Ok w' ∧
        console w' = console (after [CallConnect None; SocketOpen 0]).
Proof.
  destruct (send_transmits_only_when_open
              (after [CallConnect None; SocketOpen 0]) "chat" (Some "hi"))
    as (w' & Hsend & _ & _ & _ & _ & Hopen).
  exists w'. split; [exact Hsend|]. apply Hopen. vm_compute. reflexivity.
Defined.

Lemma disconnect_settles_witness :
  pending 2 (timeouts (disconnect plainEnv (after oneAbnormalClose))) = false ∧
  readyState <$>
    sockets (disconnect plainEnv (after [CallConnect None; SocketOpen 0])) !! 0 =
    Some WebSocket.CLOSING.
Proof.
  destruct (disconnect_settles plainEnv (after oneAbnormalClose))
    as (_ & _ & _ & _ & _ & Hp & _).
  destruct (disconnect_settles plainEnv (after [CallConnect None; SocketOpen 0]))
    as (_ & _ & _ & _ & _ & _ & Hs & _).
  split; [apply Hp; vm_compute; reflexivity|].
  destruct (Hs 0 (mkSocket "ws://localhost:8000/ws" WebSocket.OPEN true [] None))
    as (s' & -> & _ & _ & Hc); [vm_compute; reflexivity..|].
  simpl. f_equal. apply Hc. by left.
Defined.

Lemma error_event_only_sets_error_witness :
  connectionState (this (after [CallConnect None; SocketOpen 0; SocketError 0])) =
    ConnectionState.ERROR ∧
  timeouts (after [CallConnect None; SocketOpen 0; SocketError 0]) = [].
Proof.
  destruct (error_event_only_sets_error plainEnv
              (after [CallConnect None; SocketOpen 0])
              (after [CallConnect None; SocketOpen 0; SocketError 0]) 0)
    as (Hs & _ & _ & _ & Ht & _).
  - apply (run_reachable plainEnv _ [CallConnect None; SocketOpen 0]
             (init plainEnv)); [apply reach_refl|vm_compute; reflexivity].
  - vm_compute. reflexivity.
  - split; [exact Hs|]. rewrite Ht. vm_compute. reflexivity.
Defined.

Lemma connect_failure_witness :
  sockets (connect rejectingEnv None (init rejectingEnv)) = [] ∧
  connectionState (this (connect rejectingEnv None (init rejectingEnv))) =
    ConnectionState.RECONNECTING ∧
  scheduled_delay (connect rejectingEnv None (init rejectingEnv)) = Some 3000%Z.
Proof.
  destruct (connect_failure rejectingEnv (init rejectingEnv) None)
    as (Hs & _ & _ & Hretry & _); [reflexivity|by intros u _|].
  destruct Hretry as (Hst & _ & Hd); [vm_compute; reflexivity|].
  split; [exact Hs|]. split; [exact Hst|exact Hd].
Defined.

Lemma mergeTask_keeps_ids_witness :
  ∃ next, Provider.mergeTask taskB (Some snapshotS) = Some next ∧
          NoDup (Provider.id <$> Provider.currentTasks next).
Proof.
  destruct (mergeTask_keeps_ids taskB snapshotS) as (next & Hm & _ & _ & _ & Hnd).
  exists next. split; [exact Hm|]. apply Hnd. apply NoDup_singleton.
Defined.

Lemma snapshot_then_deltas_witness :
  ∃ q,
    Provider.processingStatus
      (Provider.feed Provider.initial
         ([Provider.Delta taskB 1] ++
          Provider.Snapshot snapshotS 2 ::
          [Provider.Delta taskA50 3; Provider.Delta taskB 4])) = Some q ∧
    Provider.activeAgents q = ["writer"] ∧ Provider.queueLength q = 3%Z.
Proof.
  destruct (snapshot_then_deltas Provider.initial [Provider.Delta taskB 1]
              [Provider.Delta taskA50 3; Provider.Delta taskB 4] snapshotS 2)
    as (_ & H).
  destruct H as (q & Hq & Ha & Hl & _); [repeat constructor|].
  exists q. split; [exact Hq|]. by rewrite Ha, Hl.
Defined.

Lemma formatLastActivity_buckets_witness :
  (∃ n unit,
     ConnectionStatus.formatLastActivity 200000%Z (Some 65000%Z) =
       Some (pretty n +:+ unit) ∧
     ((unit = "s ago" ∧ n = ((200000 - 65000) / 1000)%Z ∧ (0 <= n < 60)%Z) ∨
      (unit = "m ago" ∧ n = ((200000 - 65000) / 60000)%Z ∧ (1 <= n < 60)%Z) ∨
      (unit = "h ago" ∧ n = ((200000 - 65000) / 3600000)%Z ∧ (1 <= n)%Z))) ∧
  ConnectionStatus.formatLastActivity 1000%Z (Some 6000%Z) = Some "-5s ago".
Proof.
  destruct (formatLastActivity_buckets 200000 65000) as (Hpast & _ & _).
  destruct (formatLastActivity_buckets 1000 6000) as (_ & Hfuture & _).
  split; [apply Hpast; lia|].
  destruct Hfuture as [-> _]; [lia|]. vm_compute. reflexivity.
Defined.

Lemma status_text_distinguishes_states_witness :
  ConnectionStatus.pulses ConnectionState.RECONNECTING = true.
Proof.
  destruct (status_text_distinguishes_states ConnectionState.RECONNECTING
              ConnectionState.CONNECTING) as (_ & Hp & _).
  apply Hp. reflexivity.
Defined.


Lemma listener_mirrors_state_witness :
  observed 7
    (calls (default (init plainEnv)
              (run plainEnv (onConnectionStateChange 7 (init plainEnv))
                 fiveAbnormalCloses))) =
  ConnectionState.RECONNECTING.
Proof.
  destruct (listener_mirrors_state plainEnv 7 (init plainEnv)
              (default (init plainEnv)
                 (run plainEnv (onConnectionStateChange 7 (init plainEnv))
                    fiveAbnormalCloses))
              fiveAbnormalCloses) as [-> _].
  - reflexivity.
  - vm_compute. reflexivity.
  - repeat constructor; discriminate.
  - vm_compute. reflexivity.
Defined.
